(** * litdb/mysql2: statement preparation, parameter binding and result shaping

    A shallow embedding of [src/index.ts]: the named-parameter converter
    [convertNamedParams], the statement wrapper [DriverStatement] /
    [MySqlStatement], the script splitter [splitSqlStatements] and the
    row-mutation helpers of [MySqlDbConnection], followed by the properties
    the driver's specification states about them.

    Conventions of the embedding.
    - A JavaScript string is a [string]; each [ascii] stands for one UTF-16
      code unit below 256.
    - A JavaScript number is an integer-valued double, held as the
      integer [Z] it denotes (row counts, generated keys); addition rounds
      as IEEE 754 does.
    - An object used as a record is its list of own properties in
      [Object.keys] order; property lookup goes on to [Object.prototype],
      and for an array to [Array.prototype] first.
    - [async] functions are sequential: they thread the log of native calls
      and either return or throw. *)

From Stdlib Require Import List String Ascii ZArith Lia Bool Arith DecimalString.
Import ListNotations.
Local Open Scope string_scope.
Local Open Scope list_scope.

(** ** JavaScript values *)

#[warnings="-register-all"]
Inductive any : Type :=
| VUndefined
| VNull
| VBool (b : bool)
| VNum (n : Z)
| VStr (s : string)
| VArr (xs : list any)
| VObj (props : list (string * any))
| VInst (ctor : string) (init : any)
| VFun (name : string).
(* [VObj] is a plain object, [VInst C o] the object built by [new C(o)],
   [VFun f] the built-in function or constructor called [f]. *)

Definition Constructor := string.

(** [!!v] is [true] *)
Definition truthy (v : any) : bool :=
  match v with
  | VUndefined | VNull => false
  | VBool b => b
  | VNum n => negb (n =? 0)%Z
  | VStr s => negb (s =? "")
  | VArr _ | VObj _ | VInst _ _ | VFun _ => true
  end.

(** [v == null] *)
Definition is_nullish (v : any) : bool :=
  match v with
  | VUndefined | VNull => true
  | _ => false
  end.

(** [a || b] *)
Definition js_or (a b : any) : any := if truthy a then a else b.

(** [a ?? b] *)
Definition js_coalesce (a b : any) : any := if is_nullish a then b else a.

Definition typeof (v : any) : string :=
  match v with
  | VUndefined => "undefined"
  | VBool _ => "boolean"
  | VNum _ => "number"
  | VStr _ => "string"
  | VFun _ => "function"
  | VNull | VArr _ | VObj _ | VInst _ _ => "object"
  end.

Fixpoint assoc (key : string) (ps : list (string * any)) : option any :=
  match ps with
  | [] => None
  | (k, v) :: rest => if k =? key then Some v else assoc key rest
  end.

Definition index_key (i : nat) : string := NilZero.string_of_uint (Nat.to_uint i).

Fixpoint indexed (i : nat) (xs : list any) : list (string * any) :=
  match xs with
  | [] => []
  | x :: rest => (index_key i, x) :: indexed (S i) rest
  end.

(** The own properties of a value: the fields of a record, the elements
    and [length] of an array. *)
Definition own_props (v : any) : list (string * any) :=
  match v with
  | VObj ps => ps
  | VArr xs => indexed 0 xs ++ [("length", VNum (Z.of_nat (List.length xs)))]
  | VInst _ _ | VFun _ | VUndefined | VNull | VBool _ | VNum _ | VStr _ => []
  end.

Definition builtin (owner : string) (names : list string)
  : list (string * any) :=
  map (fun name => (name, VFun (owner ++ "." ++ name)%string)) names.

(** The methods every object inherits from [Object.prototype]. *)
Definition object_methods : list (string * any) :=
  builtin "Object.prototype"
    ["__defineGetter__"; "__defineSetter__"; "hasOwnProperty";
     "__lookupGetter__"; "__lookupSetter__"; "isPrototypeOf";
     "propertyIsEnumerable"; "toString"; "valueOf"; "toLocaleString"].

(** The methods an array inherits from [Array.prototype]. *)
Definition array_methods : list (string * any) :=
  builtin "Array.prototype"
    ["at"; "concat"; "copyWithin"; "fill"; "find"; "findIndex"; "findLast";
     "findLastIndex"; "lastIndexOf"; "pop"; "push"; "reverse"; "shift";
     "unshift"; "slice"; "sort"; "splice"; "includes"; "indexOf"; "join";
     "keys"; "entries"; "values"; "forEach"; "filter"; "flat"; "flatMap";
     "map"; "every"; "some"; "reduce"; "reduceRight"; "toLocaleString";
     "toString"; "toReversed"; "toSorted"; "toSpliced"; "with"].

(** [Object.prototype] and [Array.prototype] themselves, as what reading
    [__proto__] yields. *)
Definition object_prototype : any :=
  VObj (("constructor", VFun "Object") :: ("__proto__", VNull) :: object_methods).

Definition array_prototype : any :=
  VObj (("constructor", VFun "Array") :: ("__proto__", object_prototype)
        :: ("length", VNum 0) :: array_methods).

(** What a value inherits under a key it does not own: the properties
    of its prototype chain. A primitive is no [Record<string, any>] and
    inherits nothing here. *)
Definition inherited (o : any) (key : string) : option any :=
  match o with
  | VObj _ =>
      assoc key (("constructor", VFun "Object")
                 :: ("__proto__", object_prototype) :: object_methods)
  | VArr _ =>
      assoc key (("constructor", VFun "Array")
                 :: ("__proto__", array_prototype)
                 :: array_methods ++ object_methods)
  | VInst ctor _ =>
      assoc key (("constructor", VFun ctor) :: object_methods)
  | VFun _ | VUndefined | VNull | VBool _ | VNum _ | VStr _ => None
  end.

(** [o[key]], own or inherited, as an option *)
Definition lookup (o : any) (key : string) : option any :=
  match assoc key (own_props o) with
  | Some v => Some v
  | None => inherited o key
  end.

(** [key in o] *)
Definition js_in (key : string) (o : any) : bool :=
  match lookup o key with Some _ => true | None => false end.

(** [o[key]] on a non-null [o] *)
Definition js_get (o : any) (key : string) : any :=
  match lookup o key with Some v => v | None => VUndefined end.

(** [Object.keys(o)] *)
Definition object_keys (o : list (string * any)) : list string := map fst o.

(** Modelled from the spec: litdb's [IS] type tests are imported by
    [index.ts] and not defined in this repository. The spec's parameter
    source is "an ordered sequence of values, a field-name-to-value mapping,
    or a single scalar": [IS_arr] recognises the sequence, [IS_rec] every
    non-null object (a mapping, and also the rest-parameter array that
    [prepare] hands to [forNamedParams]), [IS_obj] is [typeof o == 'object']. *)
Definition IS_arr (v : any) : bool :=
  match v with VArr _ => true | _ => false end.

Definition IS_obj (v : any) : bool := typeof v =? "object".

Definition IS_rec (v : any) : bool := IS_obj v && negb (is_nullish v).

(** ** Errors and outcomes *)

Inductive error : Type :=
| Error (message : string)
| TypeError (message : string)
| NativeError (code : string).

Inductive outcome (A : Type) : Type :=
| Ok (a : A)
| Throw (e : error).
Arguments Ok {A} a.
Arguments Throw {A} e.

Definition obind {A B} (o : outcome A) (k : A -> outcome B) : outcome B :=
  match o with
  | Ok a => k a
  | Throw e => Throw e
  end.

Fixpoint omap {A B} (f : A -> outcome B) (xs : list A) : outcome (list B) :=
  match xs with
  | [] => Ok []
  | x :: rest =>
      obind (f x) (fun y => obind (omap f rest) (fun ys => Ok (y :: ys)))
  end.

(** ** Characters and strings *)

Definition code (c : ascii) : nat := nat_of_ascii c.

Definition between (lo hi n : nat) : bool := ((lo <=? n) && (n <=? hi))%nat.

(** The regular expression class [\w]: [A-Za-z0-9_]. *)
Definition is_word (c : ascii) : bool :=
  between 48 57 (code c) || between 65 90 (code c)
  || between 97 122 (code c) || (code c =? 95)%nat.

(** What [String.prototype.trim] strips: white space and line terminators
    (TAB, LF, VT, FF, CR, SP, NBSP among the code units below 256). *)
Definition is_space (c : ascii) : bool :=
  between 9 13 (code c) || (code c =? 32)%nat || (code c =? 160)%nat.

Definition LF : ascii := ascii_of_nat 10.
Definition CR : ascii := ascii_of_nat 13.
Definition semicolon : ascii := ";"%char.
Definition dollar : ascii := "$"%char.
Definition qmark : ascii := "?"%char.

Definition is_empty (s : string) : bool :=
  match s with EmptyString => true | String _ _ => false end.

Fixpoint trimStart (s : string) : string :=
  match s with
  | EmptyString => EmptyString
  | String c rest => if is_space c then trimStart rest else s
  end.

Fixpoint trimEnd (s : string) : string :=
  match s with
  | EmptyString => EmptyString
  | String c rest =>
      let rest' := trimEnd rest in
      if is_space c && is_empty rest' then EmptyString else String c rest'
  end.

(** [s.trim()] *)
Definition trim (s : string) : string := trimEnd (trimStart s).

(** Prepend a character to the first piece of a split. *)
Definition push_front (c : ascii) (pieces : list string) : list string :=
  match pieces with
  | [] => [String c EmptyString]
  | p :: ps => String c p :: ps
  end.

(** ** [splitSqlStatements] *)

(** Length of the match of [/;(?:\r\n|\n)/] anchored at the start of [s];
    [0] when it does not match there. *)
Definition separator_at (s : string) : nat :=
  match s with
  | String c1 (String c2 rest) =>
      if (c1 =? semicolon)%char then
        if (c2 =? LF)%char then 2
        else if (c2 =? CR)%char then
          match rest with
          | String c3 _ => if (c3 =? LF)%char then 3 else 0
          | EmptyString => 0
          end
        else 0
      else 0
  | _ => 0
  end.

(** [s.split(/;(?:\r\n|\n)/)]: scan left to right; at a separator close
    the current piece and skip the separator ([skip] counts the characters
    of a separator still to drop). *)
Fixpoint split_from (skip : nat) (s : string) : list string :=
  match s with
  | EmptyString => [EmptyString]
  | String c rest =>
      match skip with
      | S k => split_from k rest
      | O =>
          match separator_at s with
          | S k => EmptyString :: split_from k rest
          | O => push_front c (split_from 0 rest)
          end
      end
  end.

Definition split_statements_regex (s : string) : list string := split_from 0 s.

(** [.filter(Boolean)] on strings keeps the non-empty ones. *)
Definition splitSqlStatements (sql : string) : list string :=
  filter (fun stmt => negb (is_empty stmt))
         (map trim (split_statements_regex sql)).

(** ** [convertNamedParams] *)

Record DriverStatementQuery : Type := {
  orig : option (string * any);
  sql : string;
  values : list any;
  paramNames : option (list string);
}.

(** The longest prefix of word characters: what [(\w+)] captures. *)
Fixpoint word_prefix (s : string) : string :=
  match s with
  | EmptyString => EmptyString
  | String c rest => if is_word c then String c (word_prefix rest) else EmptyString
  end.

(** The match of [/\$(\w+)/] anchored at the start of [s]: the captured
    name, if any. *)
Definition token_at (s : string) : option string :=
  match s with
  | String c rest =>
      if (c =? dollar)%char then
        match word_prefix rest with
        | EmptyString => None
        | name => Some name
        end
      else None
  | EmptyString => None
  end.

(** [sql.replace(/\$(\w+)/g, (_, name) => { paramNames.push(name); return '?' })]:
    the rewritten text and the names pushed, in push order. [skip] counts
    the characters of a matched name still to drop. *)
Fixpoint replace_tokens (skip : nat) (s : string) : string * list string :=
  match s with
  | EmptyString => (EmptyString, [])
  | String c rest =>
      match skip with
      | S k => replace_tokens k rest
      | O =>
          match token_at s with
          | Some name =>
              let (out, names) := replace_tokens (String.length name) rest in
              (String qmark out, name :: names)
          | None =>
              let (out, names) := replace_tokens 0 rest in
              (String c out, names)
          end
      end
  end.

Definition convertNamedParams (sql0 : string) (params : any)
  : outcome DriverStatementQuery :=
  let (toSql, names) := replace_tokens 0 sql0 in
  obind
    (omap (fun name =>
             if truthy (js_get params "length") && negb (js_in name params)
             then Throw (Error ("Missing parameter: " ++ name)%string)
             else Ok (js_get params name))
          names)
    (fun vals =>
       Ok {| orig := Some (sql0, params);
             sql := toSql;
             values := vals;
             paramNames := Some names |}).

(** ** The native driver and sequential [async] code *)

(** One call of [native.query]: [query(sql)], [query(sql, values)] or
    [query({ sql, rowsAsArray: true, values })]. *)
Record NativeCall : Type := {
  call_sql : string;
  call_values : option (list any);
  call_rowsAsArray : bool;
}.

(** The first component of what mysql2 resolves with: the rows of a
    query, or the header of a statement that returns none. *)
Inductive QueryResult : Type :=
| RowData (rows : list any)
| ResultSetHeader (affectedRows insertId : Z).

Definition Log := list NativeCall.

(** The pool: its reply to a call, given the calls made before it. *)
Definition Pool := Log -> NativeCall -> outcome QueryResult.

Definition async (A : Type) : Type := Log -> outcome A * Log.

Definition ret {A} (a : A) : async A := fun log => (Ok a, log).

Definition lift {A} (o : outcome A) : async A := fun log => (o, log).

Definition bind {A B} (m : async A) (k : A -> async B) : async B :=
  fun log =>
    match m log with
    | (Ok a, log') => k a log'
    | (Throw e, log') => (Throw e, log')
    end.

Notation "x <- m ;; k" := (bind m (fun x => k))
  (at level 61, m at next level, right associativity).

(** [await native.query(...)] *)
Definition native_query (pool : Pool) (c : NativeCall) : async QueryResult :=
  fun log => (pool log c, log ++ [c]).

(** [for (const x of xs) { await f(x) }] *)
Fixpoint for_each {A} (f : A -> async unit) (xs : list A) : async unit :=
  match xs with
  | [] => ret tt
  | x :: rest => _ <- f x ;; for_each f rest
  end.

(** ** Reflection data and the schema collaborator *)

Record ColumnDefinition : Type := {
  column_name : string;
  primaryKey : bool;
}.

Record PropDefinition : Type := {
  prop_name : string;
  column : option ColumnDefinition;
}.

(** [ReflectMeta]: the class of a row, with its [$props]. *)
Record ReflectMeta : Type := {
  class_name : string;
  props : list PropDefinition;
}.

(** A row object: [row.constructor] and its own fields. *)
Record ClassInstance : Type := {
  constructor : ReflectMeta;
  fields : list (string * any);
}.

(** [InsertOptions] / [UpdateOptions] *)
Record Options : Type := {
  onlyProps : option (list string);
  onlyWithValues : bool;
}.

(** The SQL generators and the row serializer of litdb's [Schema], which
    the driver calls and does not define. The optional list is
    [{ onlyProps }]; [DeleteOptions] are handed on as they come. *)
Record Schema : Type := {
  schema_insert : ReflectMeta -> option (list string) -> string;
  schema_update : ReflectMeta -> option (list string) -> string;
  schema_delete : ReflectMeta -> option any -> string;
  toDbObject : ClassInstance -> option (list string) -> any;
}.

Record MySqlConnection : Type := {
  native : Pool;
  schema : Schema;
}.

(** ** [DriverStatement] *)

Record DriverStatement : Type := {
  connection : MySqlConnection;
  query : DriverStatementQuery;
}.

Definition elements (v : any) : list any :=
  match v with VArr xs => xs | _ => [] end.

Definition forPositionalParams (conn : MySqlConnection) (sql0 : string)
  (params : any) : outcome DriverStatement :=
  if negb (IS_arr params)
  then Throw (Error ("Expected array, but was: " ++ typeof params)%string)
  else Ok {| connection := conn;
             query := {| orig := None; sql := sql0;
                         values := elements params; paramNames := None |} |}.

Definition forNamedParams (conn : MySqlConnection) (sql0 : string)
  (params : any) : outcome DriverStatement :=
  if negb (IS_rec params)
  then Throw (Error ("Expected Record<string,any>, but was: " ++ typeof params)%string)
  else obind (convertNamedParams sql0 params)
             (fun q => Ok {| connection := conn; query := q |}).

(** [this.query.paramNames], or no names *)
Definition names_of (q : DriverStatementQuery) : list string :=
  match paramNames q with Some names => names | None => [] end.

Definition nonempty {A} (xs : list A) : bool :=
  match xs with [] => false | _ :: _ => true end.

(** [params(params)]: the positional values of one invocation;
    [None] is [undefined]. *)
Definition params (st : DriverStatement) (p : any)
  : outcome (option (list any)) :=
  let q := query st in
  if nonempty (names_of q) && IS_rec p then
    Ok (Some (map (fun key => js_coalesce (js_get p key) VNull) (names_of q)))
  else if IS_arr p then Ok (Some (elements p))
  else if negb (nonempty (values q)) then Ok None
  else if (List.length (values q) =? 1)%nat then
    Ok (if truthy p
        then Some (if IS_arr p then elements p else [p])
        else None)
  else Throw (Error ("Invalid params (" ++ typeof p ++ ") for query: " ++ sql q)%string).

(** [params[0]] of a rest-parameter list *)
Definition first_arg (ps : list any) : any := nth 0 ps VUndefined.

(** [ret[i]] on what the driver resolved with *)
Definition result_at (r : QueryResult) (i : nat) : any :=
  match r with
  | RowData rows => nth i rows VUndefined
  | ResultSetHeader _ _ => VUndefined
  end.

(** [n || 0] on a header field that may be missing *)
Definition or_zero (field : option Z) : Z :=
  match field with
  | Some n => if (n =? 0)%Z then 0%Z else n
  | None => 0%Z
  end.

Definition header_affectedRows (r : QueryResult) : option Z :=
  match r with ResultSetHeader a _ => Some a | RowData _ => None end.

Definition header_insertId (r : QueryResult) : option Z :=
  match r with ResultSetHeader _ i => Some i | RowData _ => None end.

Record Changes : Type := {
  changes : Z;
  lastInsertRowid : Z;
}.

Definition unwrapQuery (st : DriverStatement) (sql0 : string)
  (paramValues : option (list any)) : async QueryResult :=
  native_query (native (connection st))
    {| call_sql := sql0; call_values := paramValues; call_rowsAsArray := false |}.

Module Driver.

Definition all (st : DriverStatement) (ps : list any) : async QueryResult :=
  pv <- lift (params st (first_arg ps)) ;;
  unwrapQuery st (sql (query st)) pv.

Definition get (st : DriverStatement) (ps : list any) : async any :=
  pv <- lift (params st (first_arg ps)) ;;
  r <- unwrapQuery st (sql (query st)) pv ;;
  ret (js_or (result_at r 0) VNull).

Definition arrays (st : DriverStatement) (ps : list any) : async QueryResult :=
  positionalParams <- lift (params st (first_arg ps)) ;;
  native_query (native (connection st))
    {| call_sql := sql (query st); call_values := positionalParams;
       call_rowsAsArray := true |}.

Definition array (st : DriverStatement) (ps : list any) : async any :=
  x <- arrays st ps ;;
  ret (result_at x 0).

Definition exec (st : DriverStatement) (ps : list any) : async Changes :=
  r <- arrays st ps ;;
  ret {| changes := or_zero (header_affectedRows r);
         lastInsertRowid := or_zero (header_insertId r) |}.

(** [!positionalParams?.length] *)
Definition no_values (pv : option (list any)) : bool :=
  match pv with
  | None => true
  | Some vs => negb (nonempty vs)
  end.

Definition run (st : DriverStatement) (ps : list any) : async unit :=
  positionalParams <- lift (params st (first_arg ps)) ;;
  if no_values positionalParams then
    for_each
      (fun sql0 =>
         _ <- native_query (native (connection st))
                {| call_sql := sql0; call_values := None;
                   call_rowsAsArray := false |} ;;
         ret tt)
      (splitSqlStatements (sql (query st)))
  else
    _ <- native_query (native (connection st))
           {| call_sql := sql (query st); call_values := positionalParams;
              call_rowsAsArray := false |} ;;
    ret tt.

End Driver.

(** ** [MySqlStatement] *)

Record MySqlStatement : Type := {
  stmt_native : DriverStatement;
  _as : option Constructor;
}.

(** [result(o)] *)
Definition result (st : MySqlStatement) (o : any) : any :=
  if is_nullish o then VNull
  else
    match _as st with
    | Some t => if IS_obj o then VInst t o else o
    | None => o
    end.

(** [as(t)] *)
Definition as_type (st : MySqlStatement) (t : Constructor) : MySqlStatement :=
  {| stmt_native := stmt_native st; _as := Some t |}.

(** [ret.map(f)]: a header has no [map]. *)
Definition result_map (f : any -> outcome any) (r : QueryResult)
  : outcome (list any) :=
  match r with
  | RowData rows => omap f rows
  | ResultSetHeader _ _ => Throw (TypeError "map is not a function")
  end.

(** [row[i]] *)
Definition js_at (i : nat) (row : any) : outcome any :=
  if is_nullish row
  then Throw (TypeError "Cannot read properties of null or undefined")
  else Ok (match row with
           | VArr xs => nth i xs VUndefined
           | _ => js_get row (index_key i)
           end).

Module Statement.

Definition all (st : MySqlStatement) (ps : list any) : async (list any) :=
  r <- Driver.all (stmt_native st) ps ;;
  lift (result_map (fun x => Ok (result st x)) r).

Definition one (st : MySqlStatement) (ps : list any) : async any :=
  o <- Driver.get (stmt_native st) ps ;;
  ret (result st o).

Definition column (st : MySqlStatement) (ps : list any) : async (list any) :=
  r <- Driver.arrays (stmt_native st) ps ;;
  lift (result_map (js_at 0) r).

Definition value (st : MySqlStatement) (ps : list any) : async any :=
  r <- Driver.arrays (stmt_native st) ps ;;
  col <- lift (result_map (js_at 0) r) ;;
  ret (js_coalesce (nth 0 col VUndefined) VNull).

Definition arrays (st : MySqlStatement) (ps : list any) : async QueryResult :=
  Driver.arrays (stmt_native st) ps.

Definition array (st : MySqlStatement) (ps : list any) : async any :=
  Driver.array (stmt_native st) ps.

Definition exec (st : MySqlStatement) (ps : list any) : async Changes :=
  Driver.exec (stmt_native st) ps.

Definition run (st : MySqlStatement) (ps : list any) : async unit :=
  Driver.run (stmt_native st) ps.

End Statement.

(** ** [MySqlConnection.prepare] *)

(** [TemplateStringsArray | string] *)
Inductive SqlSource : Type :=
| Template (strings : list string)
| Raw (text : string).

(** The loop of [prepare] over a template: after piece [i] comes a [?]
    while [i < params.length]. *)
Fixpoint template_sql (i nparams : nat) (strings : list string) : string :=
  match strings with
  | [] => EmptyString
  | piece :: rest =>
      (piece ++ (if (i <? nparams)%nat then "?" else "")
             ++ template_sql (S i) nparams rest)%string
  end.

Definition prepare (conn : MySqlConnection) (src : SqlSource)
  (ps : list any) : outcome MySqlStatement :=
  match src with
  | Template strings =>
      obind (forPositionalParams conn
               (template_sql 0 (List.length ps) strings) (VArr ps))
            (fun d => Ok {| stmt_native := d; _as := None |})
  | Raw text =>
      obind (forNamedParams conn text (VArr ps))
            (fun d => Ok {| stmt_native := d; _as := None |})
  end.

(** ** Row-mutation helpers of [MySqlDbConnection] *)

(** [Object.keys(obj).filter(k => obj[k] != null)] *)
Definition propsWithValues (obj : list (string * any)) : list string :=
  filter (fun k => negb (is_nullish (js_get (VObj obj) k))) (object_keys obj).

(** [Array.from(new Set(xs))]: first occurrences, in order. *)
Fixpoint set_from (xs : list string) : list string :=
  match xs with
  | [] => []
  | x :: rest => x :: filter (fun y => negb (y =? x)) (set_from rest)
  end.

(** [options?.onlyProps || options?.onlyWithValues]: a list, even an
    empty one, is truthy. *)
Definition filtering (options : option Options) : bool :=
  match options with
  | Some o =>
      match onlyProps o with
      | Some _ => true
      | None => onlyWithValues o
      end
  | None => false
  end.

(** [options?.onlyProps ?? propsWithValues(row)] *)
Definition requested_props (row : ClassInstance) (options : option Options)
  : list string :=
  match options with
  | Some {| onlyProps := Some only |} => only
  | _ => propsWithValues (fields row)
  end.

Definition is_primaryKey (x : PropDefinition) : bool :=
  match column x with
  | Some c => primaryKey c
  | None => false
  end.

(** [cls.$props.filter(x => x.column?.primaryKey).map(x => x.column!.name)] *)
Definition pkNames (cls : ReflectMeta) : list string :=
  flat_map (fun x => match column x with
                     | Some c => [column_name c]
                     | None => []
                     end)
           (filter is_primaryKey (props cls)).

(** The [onlyProps] that [update] computes on its filtering branch. *)
Definition update_onlyProps (row : ClassInstance) (options : option Options)
  : list string :=
  set_from (requested_props row options ++ pkNames (constructor row)).

(** Modelled from the spec: litdb's [Meta.assert(cls)] is not defined in
    this repository; the spec's row-type description lists "declared
    properties, primary-key flags, column names", so [meta.props] is taken
    to be [cls.$props]. The [onlyProps] of [delete]:
    [meta.props.filter(p => p.column?.primaryKey).map(p => p.name)]. *)
Definition pk_prop_names (cls : ReflectMeta) : list string :=
  map prop_name (filter is_primaryKey (props cls)).

Definition zero_changes : Changes := {| changes := 0; lastInsertRowid := 0 |}.

(** The double nearest to an integer, ties to even: integers below
    [2^53] in magnitude are doubles; above, 53 significant bits are kept.
    (Header counts come from 64-bit protocol integers, far from the
    largest double.) *)
Definition double_round (z : Z) : Z :=
  let a := Z.abs z in
  if (a <? 2 ^ 53)%Z then z
  else
    let e := (Z.log2 a - 52)%Z in
    let q := (a / 2 ^ e)%Z in
    let r := (a - q * 2 ^ e)%Z in
    let half := (2 ^ (e - 1))%Z in
    let q' := if (half <? r)%Z || ((r =? half)%Z && Z.odd q)
              then (q + 1)%Z else q in
    (Z.sgn z * (q' * 2 ^ e))%Z.

(** [a + b] on numbers *)
Definition number_add (a b : Z) : Z := double_round (a + b).

Module Db.

Definition insert (conn : MySqlConnection) (row : option ClassInstance)
  (options : option Options) : async Changes :=
  match row with
  | None => ret zero_changes
  | Some row =>
      let cls := constructor row in
      if filtering options then
        let only := requested_props row options in
        stmt <- lift (prepare conn (Raw (schema_insert (schema conn) cls (Some only))) []) ;;
        Statement.exec stmt [toDbObject (schema conn) row (Some only)]
      else
        stmt <- lift (prepare conn (Raw (schema_insert (schema conn) cls None)) []) ;;
        Statement.exec stmt [toDbObject (schema conn) row None]
  end.

(** The accumulating loops of [insertAll]: [ret.changes += last.changes],
    [ret.lastInsertRowid = last.lastInsertRowid]. *)
Fixpoint accumulate {A} (step : A -> async Changes) (acc : Changes)
  (rows : list A) : async Changes :=
  match rows with
  | [] => ret acc
  | row :: rest =>
      last <- step row ;;
      accumulate step
        {| changes := number_add (changes acc) (changes last);
           lastInsertRowid := lastInsertRowid last |}
        rest
  end.

Definition insertAll (conn : MySqlConnection) (rows : list ClassInstance)
  (options : option Options) : async Changes :=
  match rows with
  | [] => ret zero_changes
  | first :: _ =>
      let cls := constructor first in
      if filtering options then
        accumulate (fun row => insert conn (Some row) options) zero_changes rows
      else
        stmt <- lift (prepare conn (Raw (schema_insert (schema conn) cls None)) []) ;;
        accumulate
          (fun row => Statement.exec stmt [toDbObject (schema conn) row None])
          zero_changes rows
  end.

Definition update (conn : MySqlConnection) (row : option ClassInstance)
  (options : option Options) : async Changes :=
  match row with
  | None => ret zero_changes
  | Some row =>
      let cls := constructor row in
      if filtering options then
        let only := update_onlyProps row options in
        stmt <- lift (prepare conn (Raw (schema_update (schema conn) cls (Some only))) []) ;;
        Statement.exec stmt [toDbObject (schema conn) row (Some only)]
      else
        stmt <- lift (prepare conn (Raw (schema_update (schema conn) cls None)) []) ;;
        Statement.exec stmt [toDbObject (schema conn) row None]
  end.

Definition delete (conn : MySqlConnection) (row : option ClassInstance)
  (options : option any) : async Changes :=
  match row with
  | None => ret zero_changes
  | Some row =>
      let cls := constructor row in
      stmt <- lift (prepare conn (Raw (schema_delete (schema conn) cls options)) []) ;;
      let only := pk_prop_names cls in
      Statement.exec stmt [toDbObject (schema conn) row (Some only)]
  end.

End Db.

(** ** Vocabulary of the specification *)

Fixpoint drop_chars (n : nat) (s : string) : string :=
  match n, s with
  | S k, String _ rest => drop_chars k rest
  | _, _ => s
  end.

Fixpoint take_chars (n : nat) (s : string) : string :=
  match n, s with
  | S k, String c rest => String c (take_chars k rest)
  | _, _ => EmptyString
  end.

(** ";\n" and ";\r\n" *)
Definition sep_lf : string := String semicolon (String LF EmptyString).
Definition sep_crlf : string :=
  String semicolon (String CR (String LF EmptyString)).

Definition is_separator (sp : string) : Prop := sp = sep_lf \/ sp = sep_crlf.

(** Some position of [s] starts a semicolon followed by a line break. *)
Fixpoint has_separator (s : string) : bool :=
  match s with
  | EmptyString => false
  | String _ rest => negb (separator_at s =? 0)%nat || has_separator rest
  end.

(** The separators that [split_from] cuts at, in order. *)
Fixpoint separators_from (skip : nat) (s : string) : list string :=
  match s with
  | EmptyString => []
  | String _ rest =>
      match skip with
      | S k => separators_from k rest
      | O =>
          match separator_at s with
          | S k => take_chars (S k) s :: separators_from k rest
          | O => separators_from 0 rest
          end
      end
  end.

(** [p0 ++ s0 ++ p1 ++ s1 ++ ... ++ pn] *)
Fixpoint interleave (pieces seps : list string) : string :=
  match pieces with
  | [] => EmptyString
  | p :: ps =>
      match seps with
      | [] => p
      | sp :: seps' => (p ++ sp ++ interleave ps seps')%string
      end
  end.

Definition starts_with (P : ascii -> bool) (s : string) : bool :=
  match s with
  | EmptyString => false
  | String c _ => P c
  end.

Fixpoint ends_with (P : ascii -> bool) (s : string) : bool :=
  match s with
  | EmptyString => false
  | String c EmptyString => P c
  | String _ rest => ends_with P rest
  end.

(** Neither the first nor the last character is white space. *)
Definition is_trimmed (s : string) : bool :=
  negb (starts_with is_space s) && negb (ends_with is_space s).

Definition substring_of (f s : string) : Prop :=
  exists pre post, s = (pre ++ f ++ post)%string.

(** The fragments occur in [s] one after the other, without overlap. *)
Fixpoint in_order (fs : list string) (s : string) : Prop :=
  match fs with
  | [] => True
  | f :: rest =>
      exists pre post, s = (pre ++ f ++ post)%string /\ in_order rest post
  end.

(** What [splitSqlStatements] keeps of the raw pieces. *)
Definition kept (pieces : list string) : list string :=
  filter (fun stmt => negb (is_empty stmt)) (map trim pieces).

Definition is_dollar (c : ascii) : bool := (c =? dollar)%char.

(** Some position of [s] holds a [$] directly followed by a word
    character: a named token starts there. *)
Fixpoint has_token (s : string) : bool :=
  match s with
  | String c ((String d _) as rest) =>
      ((c =? dollar)%char && is_word d) || has_token rest
  | _ => false
  end.

Fixpoint all_word (s : string) : bool :=
  match s with
  | EmptyString => true
  | String c rest => is_word c && all_word rest
  end.

(** [tokenised sql lits names]: [sql] reads, left to right, as
    [lit0 $name1 lit1 ... $namek litk], where every name is a maximal,
    non-empty run of word characters and no literal stretch holds a
    token. *)
Inductive tokenised : string -> list string -> list string -> Prop :=
| tokenised_end lit :
    has_token lit = false ->
    tokenised lit [lit] []
| tokenised_token lit name rest lits names :
    has_token lit = false ->
    name <> EmptyString ->
    all_word name = true ->
    starts_with is_word rest = false ->
    tokenised rest lits names ->
    tokenised (lit ++ String dollar (name ++ rest))%string
              (lit :: lits) (name :: names).

(** The literal stretches joined by one [?] each. *)
Definition with_placeholders (lits : list string) : string :=
  String.concat "?" lits.

Fixpoint count_char (c : ascii) (s : string) : nat :=
  match s with
  | EmptyString => 0
  | String d rest => (if (d =? c)%char then 1 else 0) + count_char c rest
  end.

(** Every name has a key in the mapping. *)
Definition has_keys (names : list string) (params : any) : bool :=
  forallb (fun name => js_in name params) names.

(** The call [native.query(sql)] that [run] makes for one fragment. *)
Definition frag_call (sql0 : string) : NativeCall :=
  {| call_sql := sql0; call_values := None; call_rowsAsArray := false |}.

(** The body of the loop of [run]. *)
Definition run_fragment (pool : Pool) (sql0 : string) : async unit :=
  _ <- native_query pool (frag_call sql0) ;; ret tt.

(** The call a statement makes for its whole SQL text. *)
Definition query_call (st : DriverStatement) (pv : option (list any))
  (asArray : bool) : NativeCall :=
  {| call_sql := sql (query st); call_values := pv;
     call_rowsAsArray := asArray |}.

(** The reply of the pool to fragment [j], after the fragments before
    it have been sent. *)
Definition reply_at (pool : Pool) (log : Log) (frags : list string) (j : nat)
  : outcome QueryResult :=
  pool (log ++ map frag_call (firstn j frags)) (frag_call (nth j frags "")).

Definition succeeds_at (pool : Pool) (log : Log) (frags : list string)
  (j : nat) : Prop :=
  exists r, reply_at pool log frags j = Ok r.

(** [o.then(_ => undefined)] *)
Definition settled (o : outcome QueryResult) : outcome unit :=
  match o with
  | Ok _ => Ok tt
  | Throw e => Throw e
  end.

(** What a named slot is to be bound to: the mapping's value under the
    name, or [null] when that value is [null] or [undefined]; for a name
    the mapping has no key for, what a plain object inherits under that
    name ([constructor], [toString], ...), and [null] when it inherits
    nothing. *)
Definition bound_value (m : list (string * any)) (name : string) : any :=
  match assoc name m with
  | Some v => if is_nullish v then VNull else v
  | None =>
      match inherited (VObj []) name with
      | Some v => if is_nullish v then VNull else v
      | None => VNull
      end
  end.

(** White space as [trim] understands it, listed by code unit: TAB, LF,
    VT, FF, CR, SP and NBSP. *)
Definition white_chars : list ascii :=
  map ascii_of_nat [9; 10; 11; 12; 13; 32; 160].

Definition white (c : ascii) : bool := existsb (Ascii.eqb c) white_chars.

(** Nothing but white space. *)
Fixpoint blank (s : string) : bool :=
  match s with
  | EmptyString => true
  | String c rest => white c && blank rest
  end.

(** Neither begins nor ends with white space. *)
Definition trimmed (s : string) : bool :=
  negb (starts_with white s) && negb (ends_with white s).

(** [t] is [p] without the white space around it. *)
Definition core_of (p t : string) : Prop :=
  exists l r,
    p = (l ++ t ++ r)%string
    /\ blank l = true /\ blank r = true /\ trimmed t = true.

(** The [values] that [convertNamedParams] returns, if it returns. *)
Definition values_of_convert (sql0 : string) (params : any)
  : option (list any) :=
  match convertNamedParams sql0 params with
  | Ok q => Some (values q)
  | Throw _ => None
  end.

(** ** Fixtures: a stub pool, schema and row type *)

(** A pool on which every query matches no row. *)
Definition empty_pool : Pool := fun _ _ => Ok (RowData []).

(** A pool that rejects the statement [bad] and accepts the rest. *)
Definition failing_pool (bad : string) : Pool :=
  fun _ c =>
    if call_sql c =? bad then Throw (NativeError "ER_PARSE_ERROR")
    else Ok (ResultSetHeader 0 0).

Definition stub_schema : Schema :=
  {| schema_insert := fun cls only =>
       ("INSERT INTO " ++ class_name cls ++ " VALUES ($id, $email)")%string;
     schema_update := fun cls only =>
       ("UPDATE " ++ class_name cls ++ " SET email=$email WHERE id=$id")%string;
     schema_delete := fun cls options =>
       ("DELETE FROM " ++ class_name cls ++ " WHERE id=$id")%string;
     toDbObject := fun row only =>
       VObj (match only with
             | Some names =>
                 filter (fun kv => existsb (String.eqb (fst kv)) names) (fields row)
             | None => fields row
             end) |}.

Definition stub_conn (pool : Pool) : MySqlConnection :=
  {| native := pool; schema := stub_schema |}.

(** A row type whose primary-key property [id] is stored in the column
    [contact_id]. *)
Definition Contact : ReflectMeta :=
  {| class_name := "Contact";
     props :=
       [ {| prop_name := "id";
            column := Some {| column_name := "contact_id"; primaryKey := true |} |};
         {| prop_name := "name";
            column := Some {| column_name := "name"; primaryKey := false |} |};
         {| prop_name := "email";
            column := Some {| column_name := "email"; primaryKey := false |} |} ] |}.

Definition jane : ClassInstance :=
  {| constructor := Contact;
     fields := [("id", VNum 2); ("name", VStr "Jane Doe");
                ("email", VStr "jane@doe.org")] |}.

Definition two_inserts : string :=
  ("INSERT INTO a VALUES ($x);" ++ String LF "INSERT INTO b VALUES ($x)")%string.

Definition two_tables : string :=
  ("CREATE TABLE a(id INT);" ++ String LF "CREATE TABLE b(id INT);")%string.

Definition three_tables : string :=
  (two_tables ++ String LF "CREATE TABLE c(id INT);")%string.

Definition two_inserts_sql : string :=
  ("INSERT INTO a VALUES (?);" ++ String LF "INSERT INTO b VALUES (?)")%string.

(** A statement over [sql0] with the slots [vals] and no names. *)
Definition positional (pool : Pool) (sql0 : string) (vals : list any)
  : DriverStatement :=
  {| connection := stub_conn pool;
     query := {| orig := None; sql := sql0; values := vals;
                 paramNames := None |} |}.

(** A statement prepared from text with named tokens. *)
Definition named (pool : Pool) (sql0 toSql : string) (names : list string)
  : DriverStatement :=
  {| connection := stub_conn pool;
     query := {| orig := Some (sql0, VArr []); sql := toSql;
                 values := map (fun _ => VUndefined) names;
                 paramNames := Some names |} |}.

(** ** Connection-level operations of [MySqlDbConnection] *)

(** What the inherited [this.prepare(strings, ...params)] of litdb's
    [DbConnection] hands back, [[stmt, p, into]]; that method is not
    part of this repository, so its result is the input here. *)
Record Prepared : Type := {
  prep_stmt : MySqlStatement;
  prep_params : any;
  prep_into : option Constructor;
}.

(** [Array.isArray(p) ? f(...p) : f(p)] *)
Definition spread (p : any) : list any :=
  if IS_arr p then elements p else [p].

(** [into ? stmt.as(into) : stmt] *)
Definition typed (pr : Prepared) : MySqlStatement :=
  match prep_into pr with
  | Some t => as_type (prep_stmt pr) t
  | None => prep_stmt pr
  end.

(** The constructor [Boolean]. *)
Definition Boolean : Constructor := "Boolean".

Module Query.

Definition all (pr : Prepared) : async (list any) :=
  Statement.all (typed pr) (spread (prep_params pr)).

Definition one (pr : Prepared) : async any :=
  Statement.one (typed pr) (spread (prep_params pr)).

Definition column (pr : Prepared) : async (list any) :=
  r <- Statement.arrays (prep_stmt pr) (spread (prep_params pr)) ;;
  lift (result_map (js_at 0) r).

Definition value (pr : Prepared) : async any :=
  v <- Statement.value (prep_stmt pr) (spread (prep_params pr)) ;;
  match prep_into pr with
  | Some t => if t =? Boolean then ret (VBool (truthy v)) else ret v
  | None => ret v
  end.

Definition arrays (pr : Prepared) : async QueryResult :=
  Statement.arrays (prep_stmt pr) (spread (prep_params pr)).

Definition array (pr : Prepared) : async any :=
  Statement.array (prep_stmt pr) (spread (prep_params pr)).

(** [tpl] is [IS.tpl(strings)]. *)
Definition exec (tpl : bool) (pr : Prepared) : async Changes :=
  if IS_arr (prep_params pr) && negb tpl
  then Statement.exec (prep_stmt pr) (elements (prep_params pr))
  else Statement.exec (prep_stmt pr) [prep_params pr].

Definition run (pr : Prepared) : async unit :=
  Statement.run (prep_stmt pr) (spread (prep_params pr)).

(** [dropTable] and [createTable]: [ddl] is the text the schema
    generated; it is prepared and run without arguments. *)
Definition run_ddl (conn : MySqlConnection) (ddl : string) : async unit :=
  stmt <- lift (prepare conn (Raw ddl) []) ;;
  Statement.run stmt [].

End Query.

(** ** Further vocabulary *)

Fixpoint all_space (s : string) : bool :=
  match s with
  | EmptyString => true
  | String c rest => is_space c && all_space rest
  end.

(** The fields of a serialized row. *)
Definition fields_of (v : any) : list (string * any) :=
  match v with VObj m => m | _ => [] end.

(** The call that [exec] makes for a serialized row on a statement
    prepared from a text with the names [names]. *)
Definition named_call (toSql : string) (names : list string)
  (m : list (string * any)) : NativeCall :=
  {| call_sql := toSql;
     call_values := match names with
                    | [] => None
                    | _ :: _ => Some (map (bound_value m) names)
                    end;
     call_rowsAsArray := true |}.

(** The Change Result that [exec] reads off a reply. *)
Definition changes_of (r : QueryResult) : Changes :=
  {| changes := or_zero (header_affectedRows r);
     lastInsertRowid := or_zero (header_insertId r) |}.

(** The Change Result of each call of [cs] that the pool accepts, in
    order, up to the first call it rejects. *)
Fixpoint accepted (pool : Pool) (log : Log) (cs : list NativeCall)
  : list Changes :=
  match cs with
  | [] => []
  | c :: rest =>
      match pool log c with
      | Ok r => changes_of r :: accepted pool (log ++ [c]) rest
      | Throw _ => []
      end
  end.

(** The error of the first call of [cs] that the pool rejects. *)
Fixpoint rejected (pool : Pool) (log : Log) (cs : list NativeCall)
  : option error :=
  match cs with
  | [] => None
  | c :: rest =>
      match pool log c with
      | Ok _ => rejected pool (log ++ [c]) rest
      | Throw e => Some e
      end
  end.

(** [ret.changes += last.changes; ret.lastInsertRowid = last.lastInsertRowid]
    over a list of results. *)
Definition tally (acc : Changes) (results : list Changes) : Changes :=
  {| changes := fold_left number_add (map changes results) (changes acc);
     lastInsertRowid := last (map lastInsertRowid results) (lastInsertRowid acc) |}.

(** A fetch operation read as: resolve the values, send one call,
    shape the reply. *)
Definition one_call (st : MySqlStatement) (ps : list any) (log : Log)
  (asArray : bool) {A} (shape : QueryResult -> outcome A)
  : outcome A * Log :=
  match params (stmt_native st) (first_arg ps) with
  | Throw e => (Throw e, log)
  | Ok pv =>
      (obind (native (connection (stmt_native st)) log
                (query_call (stmt_native st) pv asArray)) shape,
       log ++ [query_call (stmt_native st) pv asArray])
  end.

(** A pool under which every statement affects one row and the
    generated key counts the calls made so far. *)
Definition counting_pool : Pool :=
  fun log _ => Ok (ResultSetHeader 1 (Z.of_nat (S (List.length log)))).

Definition bob : ClassInstance :=
  {| constructor := Contact;
     fields := [("id", VNum 3); ("name", VStr "Bob");
                ("email", VStr "bob@mail.org")] |}.

(** One step of a derivation of [tokenised] on a concrete text. *)
Ltac token lit name rest :=
  apply (tokenised_token lit name rest);
  [reflexivity | discriminate | reflexivity | reflexivity | ].

(** * Properties *)

(** ** Strings *)

Lemma append_nil_r (s : string) : (s ++ "")%string = s.
Proof. induction s as [|c s IH]; simpl; [reflexivity | now rewrite IH]. Qed.

Lemma append_assoc (a b c : string) :
  ((a ++ b) ++ c)%string = (a ++ (b ++ c))%string.
Proof. induction a as [|x a IH]; simpl; [reflexivity | now rewrite IH]. Qed.

Lemma take_drop (n : nat) (s : string) :
  (take_chars n s ++ drop_chars n s)%string = s.
Proof.
  revert s; induction n as [|n IH]; intros [|c s]; simpl; try reflexivity.
  now rewrite IH.
Qed.

Lemma drop_nil (n : nat) : drop_chars n "" = "".
Proof. now destruct n. Qed.
Example split_two :
  splitSqlStatements
    ("CREATE TABLE a(id INT);" ++ String LF "CREATE TABLE b(id INT);")%string
  = ["CREATE TABLE a(id INT)"; "CREATE TABLE b(id INT);"].
Proof. reflexivity. Qed.

Example split_edges :
  split_statements_regex (String semicolon (String LF "abc")) = [""; "abc"]
  /\ split_statements_regex ("abc" ++ sep_lf) = ["abc"; ""]
  /\ split_statements_regex ("a" ++ sep_crlf ++ "b") = ["a"; "b"]
  /\ split_statements_regex ("a;" ++ String CR "b") = [("a;" ++ String CR "b")%string]
  /\ split_statements_regex ("a;" ++ sep_lf ++ "b") = ["a;"; "b"]
  /\ split_statements_regex "" = [""]
  /\ splitSqlStatements (" a ; " ++ sep_lf ++ "  " ++ sep_crlf ++ String LF " b") = ["a ;"; "b"].
Proof. repeat split. Qed.

Example replace_edges :
  replace_tokens 0 "$" = ("$", [])
  /\ replace_tokens 0 "$$a" = ("$?", ["a"])
  /\ replace_tokens 0 "$a$b" = ("??", ["a"; "b"])
  /\ replace_tokens 0 "a$1b_ c$-d" = ("a? c$-d", ["1b_"]).
Proof. repeat split. Qed.

Example inherited_names :
  js_get (VObj []) "constructor" = VFun "Object"
  /\ js_get (VObj [("id", VNum 1)]) "toString"
     = VFun "Object.prototype.toString"
  /\ js_in "toString" (VObj [("length", VNum 1)]) = true
  /\ js_in "push" (VArr []) = true
  /\ js_get (VArr [VNum 7]) "0" = VNum 7
  /\ js_get (VArr [VNum 7]) "length" = VNum 1
  /\ js_get (VObj []) "id" = VUndefined
  /\ js_in "id" (VObj []) = false
  /\ values_of_convert "SELECT $constructor" (VObj []) = Some [VFun "Object"].
Proof. repeat split. Qed.

Example doubles_round :
  (number_add (2 ^ 53) 1 = 2 ^ 53
   /\ number_add (2 ^ 53) 3 = 2 ^ 53 + 4
   /\ number_add (2 ^ 54) 2 = 2 ^ 54
   /\ number_add (2 ^ 54) 6 = 2 ^ 54 + 8
   /\ number_add (- 2 ^ 53) (-1) = - 2 ^ 53
   /\ number_add 2 3 = 5
   /\ number_add (2 ^ 53 - 1) 1 = 2 ^ 53)%Z.
Proof. repeat split. Qed.

Example convert_two :
  convertNamedParams "SELECT $a, $b1 $ $$a"
    (VObj [("a", VNum 1); ("b1", VStr "x")])
  = Ok {| orig := Some ("SELECT $a, $b1 $ $$a", VObj [("a", VNum 1); ("b1", VStr "x")]);
          sql := "SELECT ?, ? $ $?";
          values := [VNum 1; VStr "x"; VNum 1];
          paramNames := Some ["a"; "b1"; "a"] |}.
Proof. reflexivity. Qed.


(** ** The script splitter *)

Lemma separator_at_cases (s : string) :
  separator_at s = 0
  \/ (exists r, s = (sep_lf ++ r)%string /\ separator_at s = 2)
  \/ (exists r, s = (sep_crlf ++ r)%string /\ separator_at s = 3).
Proof.
  destruct s as [|c1 [|c2 r]]; simpl; auto.
  destruct (Ascii.eqb_spec c1 semicolon) as [-> | _]; auto.
  destruct (Ascii.eqb_spec c2 LF) as [-> | _].
  - right; left. now exists r.
  - destruct (Ascii.eqb_spec c2 CR) as [-> | _]; auto.
    destruct r as [|c3 r]; auto.
    destruct (Ascii.eqb_spec c3 LF) as [-> | _]; auto.
    right; right. now exists r.
Qed.

Lemma separator_at_prefix (a b : string) :
  separator_at (a ++ b) = 0 -> separator_at a = 0.
Proof.
  intros H.
  destruct (separator_at_cases a) as [E | [[r [-> E]] | [r [-> E]]]]; auto;
    rewrite append_assoc in H; discriminate H.
Qed.

Lemma take_separator (s : string) (k : nat) :
  separator_at s = S k -> is_separator (take_chars (S k) s).
Proof.
  intros H.
  destruct (separator_at_cases s) as [E | [[r [-> E]] | [r [-> E]]]].
  - congruence.
  - rewrite H in E. injection E as ->. now left.
  - rewrite H in E. injection E as ->. now right.
Qed.

Lemma split_from_cons (k : nat) (s : string) :
  exists p ps, split_from k s = p :: ps.
Proof.
  revert k; induction s as [|c s IH]; intros k; cbn [split_from].
  - now exists "", [].
  - destruct k as [|k]; [|apply IH].
    destruct (separator_at (String c s)) as [|j].
    + destruct (IH 0) as [p [ps ->]]. simpl. now exists (String c p), ps.
    + now exists "", (split_from j s).
Qed.

Lemma split_from_length (s : string) (k : nat) :
  List.length (split_from k s) = S (List.length (separators_from k s)).
Proof.
  revert k; induction s as [|c s IH]; intros k;
    cbn [split_from separators_from]; [reflexivity|].
  destruct k as [|k]; [|apply IH].
  destruct (separator_at (String c s)) as [|j]; simpl.
  - destruct (split_from_cons 0 s) as [p [ps E]].
    rewrite <- (IH 0), E. reflexivity.
  - now rewrite IH.
Qed.

Lemma split_from_interleave (s : string) (k : nat) :
  interleave (split_from k s) (separators_from k s) = drop_chars k s.
Proof.
  revert k; induction s as [|c s IH]; intros k.
  - simpl. now rewrite drop_nil.
  - destruct k as [|k]; [|apply IH].
    cbn [split_from separators_from drop_chars].
    destruct (separator_at (String c s)) as [|j] eqn:E.
    + specialize (IH 0). cbn [drop_chars] in IH.
      destruct (split_from_cons 0 s) as [p [ps Ep]].
      rewrite Ep in *. simpl.
      destruct (separators_from 0 s); simpl in *; now rewrite IH.
    + cbn [interleave]. rewrite IH.
      cbn [take_chars append]. now rewrite take_drop.
Qed.

Lemma separators_from_sound (s : string) (k : nat) :
  Forall is_separator (separators_from k s).
Proof.
  revert k; induction s as [|c s IH]; intros k;
    cbn [separators_from]; [constructor|].
  destruct k as [|k]; [|apply IH].
  destruct (separator_at (String c s)) as [|j] eqn:E; [apply IH|].
  constructor; [|apply IH].
  now apply (take_separator (String c s)).
Qed.

Lemma split_from_head_prefix (s : string) (p : string) (ps : list string) :
  split_from 0 s = p :: ps -> exists tail, s = (p ++ tail)%string.
Proof.
  intros E. pose proof (split_from_interleave s 0) as H.
  rewrite E in H. simpl in H.
  destruct (separators_from 0 s) as [|sp seps].
  - exists "". now rewrite append_nil_r.
  - now exists (sp ++ interleave ps seps)%string.
Qed.

Lemma split_from_no_separator (s : string) (k : nat) :
  Forall (fun p => has_separator p = false) (split_from k s).
Proof.
  revert k; induction s as [|c s IH]; intros k; cbn [split_from].
  - now repeat constructor.
  - destruct k as [|k]; [|apply IH].
    destruct (separator_at (String c s)) as [|j] eqn:E.
    + destruct (split_from_cons 0 s) as [p [ps Ep]].
      pose proof (IH 0) as F. rewrite Ep in *. simpl.
      inversion F as [|? ? Hp Hps]; subst.
      constructor; [|assumption].
      destruct (split_from_head_prefix s _ _ Ep) as [tail ->].
      cbn [has_separator]. rewrite Hp.
      change (String c (p ++ tail)) with (String c p ++ tail)%string in E.
      now rewrite (separator_at_prefix _ _ E).
    + constructor; [reflexivity | apply IH].
Qed.

Lemma trimStart_suffix (s : string) :
  exists pre, s = (pre ++ trimStart s)%string.
Proof.
  induction s as [|c s [pre IH]]; simpl.
  - now exists "".
  - destruct (is_space c).
    + exists (String c pre). simpl. now rewrite <- IH.
    + now exists "".
Qed.

Lemma trimEnd_prefix (s : string) :
  exists post, s = (trimEnd s ++ post)%string.
Proof.
  induction s as [|c s [post IH]]; simpl.
  - now exists "".
  - destruct (is_space c && is_empty (trimEnd s)).
    + now exists (String c s).
    + exists post. simpl. now rewrite <- IH.
Qed.

Lemma trim_substring (s : string) : substring_of (trim s) s.
Proof.
  unfold substring_of, trim.
  destruct (trimStart_suffix s) as [pre E].
  destruct (trimEnd_prefix (trimStart s)) as [post E'].
  exists pre, post. now rewrite <- E', <- E.
Qed.

Lemma trimStart_starts (s : string) :
  starts_with is_space (trimStart s) = false.
Proof.
  induction s as [|c s IH]; simpl; [reflexivity|].
  destruct (is_space c) eqn:E; [assumption | simpl; assumption].
Qed.

Lemma trimEnd_starts (s : string) :
  starts_with is_space s = false -> starts_with is_space (trimEnd s) = false.
Proof.
  destruct s as [|c s]; simpl; [reflexivity|].
  intros E. rewrite E. simpl. exact E.
Qed.

Lemma trimEnd_ends (s : string) : ends_with is_space (trimEnd s) = false.
Proof.
  induction s as [|c s IH]; simpl; [reflexivity|].
  destruct (is_space c) eqn:Ec; destruct (trimEnd s) as [|d r] eqn:Er;
    simpl in *; try reflexivity; try assumption.
Qed.

Lemma trim_is_trimmed (s : string) : is_trimmed (trim s) = true.
Proof.
  unfold is_trimmed, trim.
  rewrite trimEnd_ends, trimEnd_starts by apply trimStart_starts.
  reflexivity.
Qed.

Lemma in_order_prepend (x : string) (fs : list string) (t : string) :
  in_order fs t -> in_order fs (x ++ t)%string.
Proof.
  destruct fs as [|f rest]; simpl; [trivial|].
  intros [pre [post [-> H]]].
  exists (x ++ pre)%string, post. split; [|assumption].
  now rewrite append_assoc.
Qed.

Lemma in_order_interleave (pieces seps : list string) :
  List.length pieces = S (List.length seps) ->
  in_order (kept pieces) (interleave pieces seps).
Proof.
  revert seps; induction pieces as [|p ps IH]; intros seps L; [discriminate|].
  destruct (trim_substring p) as [a [b Ep]].
  destruct seps as [|sp seps].
  - destruct ps; [|discriminate]. unfold kept; simpl.
    destruct (is_empty (trim p)); simpl; [trivial|].
    exists a, b. now split.
  - simpl in L. injection L as L. specialize (IH seps L).
    unfold kept in *; simpl.
    destruct (is_empty (trim p)); simpl.
    + now apply in_order_prepend, in_order_prepend.
    + exists a, (b ++ sp ++ interleave ps seps)%string. split.
      * rewrite Ep at 1. now rewrite !append_assoc.
      * now apply in_order_prepend, in_order_prepend.
Qed.

Lemma in_order_substrings (fs : list string) (s : string) :
  in_order fs s -> Forall (fun f => substring_of f s) fs.
Proof.
  revert s; induction fs as [|f rest IH]; intros s; simpl; [constructor|].
  intros [pre [post [-> H]]].
  constructor.
  - now exists pre, post.
  - apply IH in H. eapply Forall_impl; [|exact H].
    intros g [pre' [post' ->]].
    exists (pre ++ f ++ pre')%string, post'. now rewrite !append_assoc.
Qed.


Lemma has_separator_suffix (pre t : string) :
  has_separator (pre ++ t) = false -> has_separator t = false.
Proof.
  induction pre as [|c pre IH]; [trivial|].
  change (String c pre ++ t)%string with (String c (pre ++ t)).
  cbn [has_separator]. intros H. apply orb_false_iff in H. now apply IH.
Qed.



Lemma no_separator_inside (p sp : string) :
  has_separator p = false -> is_separator sp -> ~ substring_of sp p.
Proof.
  intros H S [pre [post ->]].
  apply has_separator_suffix in H.
  destruct S as [-> | ->]; discriminate H.
Qed.

Lemma is_space_white (c : ascii) : is_space c = white c.
Proof. destruct c as [[] [] [] [] [] [] [] []]; reflexivity. Qed.

Lemma starts_with_ext (P Q : ascii -> bool) (s : string) :
  (forall c, P c = Q c) -> starts_with P s = starts_with Q s.
Proof. intros E. destruct s; simpl; auto. Qed.

Lemma ends_with_ext (P Q : ascii -> bool) (s : string) :
  (forall c, P c = Q c) -> ends_with P s = ends_with Q s.
Proof.
  intros E. induction s as [|c s IH]; [reflexivity|].
  destruct s; simpl in *; auto.
Qed.

Lemma trim_trimmed (s : string) : trimmed (trim s) = true.
Proof.
  unfold trimmed.
  rewrite <- (starts_with_ext _ _ _ is_space_white),
    <- (ends_with_ext _ _ _ is_space_white).
  apply trim_is_trimmed.
Qed.

Lemma trimStart_blank (s : string) :
  exists l, s = (l ++ trimStart s)%string /\ blank l = true.
Proof.
  induction s as [|c s [l [E B]]]; simpl.
  - now exists "".
  - destruct (is_space c) eqn:Ec.
    + exists (String c l). simpl. rewrite <- E, <- is_space_white, Ec, B.
      now split.
    + now exists "".
Qed.

Lemma trimEnd_blank (s : string) :
  exists r, s = (trimEnd s ++ r)%string /\ blank r = true.
Proof.
  induction s as [|c s [r [E B]]]; simpl.
  - now exists "".
  - destruct (is_space c) eqn:Ec; destruct (trimEnd s) as [|d t] eqn:Et;
      simpl in *.
    + exists (String c s). split; [reflexivity|].
      simpl. rewrite <- is_space_white, Ec. simpl. now rewrite E.
    + exists r. split; [now rewrite <- E | exact B].
    + exists r. split; [now rewrite <- E | exact B].
    + exists r. split; [now rewrite <- E | exact B].
Qed.

Lemma trim_core (p : string) : core_of p (trim p).
Proof.
  unfold core_of, trim.
  destruct (trimStart_blank p) as [l [El Bl]].
  destruct (trimEnd_blank (trimStart p)) as [r [Er Br]].
  exists l, r. repeat split; try assumption.
  - now rewrite <- Er.
  - apply trim_trimmed.
Qed.

Lemma trim_cores (pieces : list string) :
  Forall2 core_of pieces (map trim pieces).
Proof.
  induction pieces; simpl; constructor; [apply trim_core | assumption].
Qed.

Lemma is_empty_eqb (t : string) : is_empty t = (t =? "").
Proof. now destruct t. Qed.

(** C6: [splitSqlStatements] cuts the text only at a semicolon directly
    followed by a line break: the pieces and the separators between
    them, each [;\n] or [;\r\n], spell the input, and no piece holds
    such a separator. Each piece is stripped of the white space around
    it and the pieces left empty are dropped: the result is the
    non-empty stripped pieces, in order. Every returned fragment is
    non-empty, neither begins nor ends with white space, is a substring
    of the input, and the fragments occur in source order. *)
Theorem C6_split_statements (sql0 : string) :
  exists pieces seps cores,
    List.length pieces = S (List.length seps)
    /\ Forall is_separator seps
    /\ interleave pieces seps = sql0
    /\ Forall (fun p => forall sp, is_separator sp -> ~ substring_of sp p)
              pieces
    /\ Forall2 core_of pieces cores
    /\ splitSqlStatements sql0 = filter (fun t => negb (t =? "")) cores
    /\ Forall (fun f => f <> "" /\ trimmed f = true /\ substring_of f sql0)
              (splitSqlStatements sql0)
    /\ in_order (splitSqlStatements sql0) sql0.
Proof.
  exists (split_from 0 sql0), (separators_from 0 sql0),
    (map trim (split_from 0 sql0)).
  pose proof (split_from_length sql0 0) as L.
  pose proof (split_from_interleave sql0 0) as I. cbn [drop_chars] in I.
  assert (O : in_order (splitSqlStatements sql0) sql0).
  { rewrite <- I at 2. now apply in_order_interleave. }
  split; [exact L|]. split; [apply separators_from_sound|].
  split; [exact I|]. split.
  { pose proof (split_from_no_separator sql0 0) as N.
    eapply Forall_impl; [|exact N].
    intros p Hp sp Hs. now apply no_separator_inside. }
  split; [apply trim_cores|]. split.
  { unfold splitSqlStatements, split_statements_regex.
    apply filter_ext. intros t. now rewrite is_empty_eqb. }
  split; [|exact O].
  apply Forall_forall. intros f Hf.
  pose proof (in_order_substrings _ _ O) as S.
  rewrite Forall_forall in S.
  unfold splitSqlStatements in Hf. apply filter_In in Hf.
  destruct Hf as [Hin Hne]. apply in_map_iff in Hin.
  destruct Hin as [p [<- Hp]]. repeat split.
  - intros E. rewrite E in Hne. discriminate.
  - apply trim_trimmed.
  - apply S. unfold splitSqlStatements. apply filter_In. split; [|exact Hne].
    apply in_map_iff. now exists p.
Qed.

(** ** Named parameters *)

Lemma word_prefix_none (s : string) :
  starts_with is_word s = false -> word_prefix s = "".
Proof. destruct s as [|c s]; simpl; [reflexivity | now intros ->]. Qed.

Lemma word_prefix_name (name rest : string) :
  all_word name = true ->
  starts_with is_word rest = false ->
  word_prefix (name ++ rest) = name.
Proof.
  intros Hn Hr. induction name as [|c name IH]; simpl in *.
  - now apply word_prefix_none.
  - apply andb_true_iff in Hn. destruct Hn as [-> Hn]. now rewrite IH.
Qed.

Lemma replace_tokens_skip (a r : string) :
  replace_tokens (String.length a) (a ++ r) = replace_tokens 0 r.
Proof. induction a as [|c a IH]; simpl; [reflexivity | exact IH]. Qed.

Lemma has_token_tail (c : ascii) (s : string) :
  has_token (String c s) = false -> has_token s = false.
Proof.
  destruct s as [|d s]; [reflexivity|].
  cbn [has_token]. intros H. now apply orb_false_iff in H.
Qed.

Lemma token_at_literal (c : ascii) (lit t : string) :
  has_token (String c lit) = false ->
  ends_with is_dollar (String c lit) = false \/ starts_with is_word t = false ->
  token_at (String c (lit ++ t)) = None.
Proof.
  intros H E. unfold token_at.
  destruct (c =? dollar)%char eqn:Ec; [|reflexivity].
  rewrite word_prefix_none; [reflexivity|].
  destruct lit as [|d lit]; simpl in *.
  - unfold is_dollar in E. rewrite Ec in E. now destruct E.
  - rewrite Ec in H. simpl in H. now apply orb_false_iff in H.
Qed.

Lemma replace_tokens_literal (lit t : string) :
  has_token lit = false ->
  ends_with is_dollar lit = false \/ starts_with is_word t = false ->
  replace_tokens 0 (lit ++ t)
  = ((lit ++ fst (replace_tokens 0 t))%string, snd (replace_tokens 0 t)).
Proof.
  induction lit as [|c lit IH]; intros H E.
  - simpl. now destruct (replace_tokens 0 t).
  - change (String c lit ++ t)%string with (String c (lit ++ t)).
    cbn [replace_tokens]. rewrite (token_at_literal _ _ _ H E).
    rewrite IH.
    + reflexivity.
    + now apply has_token_tail in H.
    + destruct lit as [|d lit]; [now left | exact E].
Qed.

Lemma tokenised_cons (s : string) (lits names : list string) :
  tokenised s lits names -> exists l ls, lits = l :: ls.
Proof. intros [lit H | lit name rest ls ns]; eauto. Qed.

Lemma tokenised_lengths (s : string) (lits names : list string) :
  tokenised s lits names -> List.length lits = S (List.length names).
Proof. induction 1; simpl; congruence. Qed.

Lemma replace_tokens_tokenised (s : string) (lits names : list string) :
  tokenised s lits names ->
  replace_tokens 0 s = (with_placeholders lits, names).
Proof.
  induction 1 as [lit H | lit name rest lits names H Hne Hw Hr Ht IH].
  - rewrite <- (append_nil_r lit) at 1.
    rewrite replace_tokens_literal by auto.
    simpl. now rewrite append_nil_r.
  - rewrite replace_tokens_literal by (auto; now right).
    cbn [replace_tokens token_at].
    replace (dollar =? dollar)%char with true by reflexivity.
    rewrite (word_prefix_name _ _ Hw Hr).
    destruct name as [|c name]; [congruence|].
    rewrite replace_tokens_skip, IH. cbn [fst snd].
    destruct (tokenised_cons _ _ _ Ht) as [l [ls ->]].
    reflexivity.
Qed.

Lemma count_char_app (c : ascii) (a b : string) :
  count_char c (a ++ b) = count_char c a + count_char c b.
Proof. induction a as [|x a IH]; simpl; [reflexivity | rewrite IH; lia]. Qed.

Lemma count_qmark_word (name : string) :
  all_word name = true -> count_char qmark name = 0.
Proof.
  induction name as [|c name IH]; simpl; [reflexivity|].
  intros H. apply andb_true_iff in H. destruct H as [Hc Hn].
  rewrite (IH Hn).
  destruct (Ascii.eqb_spec c qmark) as [-> | _]; [discriminate Hc | reflexivity].
Qed.

Lemma with_placeholders_cons (lit l : string) (ls : list string) :
  with_placeholders (lit :: l :: ls)
  = (lit ++ String qmark (with_placeholders (l :: ls)))%string.
Proof. reflexivity. Qed.

Lemma count_placeholders (s : string) (lits names : list string) :
  tokenised s lits names ->
  count_char qmark (with_placeholders lits)
  = List.length names + count_char qmark s.
Proof.
  induction 1 as [lit H | lit name rest lits names H Hne Hw Hr Ht IH].
  - reflexivity.
  - destruct (tokenised_cons _ _ _ Ht) as [l [ls E]]. subst lits.
    rewrite with_placeholders_cons, !count_char_app.
    cbn [count_char]. rewrite IH, count_char_app, (count_qmark_word _ Hw).
    simpl. lia.
Qed.

Lemma omap_pure {A B} (f : A -> outcome B) (g : A -> B) (xs : list A) :
  (forall x, In x xs -> f x = Ok (g x)) -> omap f xs = Ok (map g xs).
Proof.
  induction xs as [|x xs IH]; intros H; simpl; [reflexivity|].
  rewrite H by now left. simpl.
  rewrite IH by (intros; apply H; now right). reflexivity.
Qed.

(** Every text has such a reading, so the number of its named tokens is
    well defined. *)
Lemma tokenised_total (s : string) : exists lits names, tokenised s lits names.
Proof.
  remember (String.length s) as n eqn:L.
  revert s L. induction n as [n IH] using lt_wf_ind. intros s L.
  destruct s as [|c s].
  - exists [""], []. now constructor.
  - destruct (c =? dollar)%char eqn:Ec.
    + apply Ascii.eqb_eq in Ec. subst c.
      destruct (starts_with is_word s) eqn:Ew.
      * (* a token starts here *)
        pose (name := word_prefix s).
        assert (Hs : exists rest, s = (name ++ rest)%string
                       /\ starts_with is_word rest = false
                       /\ all_word name = true).
        { subst name. clear. induction s as [|d s [rest [E [R W]]]]; simpl.
          - now exists "".
          - destruct (is_word d) eqn:Ed.
            + exists rest. simpl. rewrite Ed, W. now rewrite <- E.
            + exists (String d s). simpl. now rewrite Ed. }
        destruct Hs as [rest [E [R W]]].
        assert (Hne : name <> "").
        { subst name. destruct s as [|d s]; [discriminate|].
          simpl in *. now rewrite Ew. }
        destruct (IH (String.length rest)) with (s := rest)
          as [lits [names T]]; [|reflexivity|].
        { subst n. rewrite E. simpl.
          clear. induction name; simpl; lia. }
        exists ("" :: lits), (name :: names).
        rewrite E. apply (tokenised_token "" name); auto.
      * destruct (IH (String.length s)) with (s := s)
          as [lits [names T]]; [subst; simpl; lia | reflexivity |].
        destruct T as [lit H | lit name rest lits names H Hne Hw Hr Ht].
        -- exists [String dollar lit], []. constructor.
           destruct lit; simpl in *; [reflexivity|]. now rewrite Ew, H.
        -- exists (String dollar lit :: lits), (name :: names).
           apply (tokenised_token (String dollar lit)); auto.
           destruct lit; simpl in *; [reflexivity|].
           rewrite H. simpl in Ew.
           replace (dollar =? dollar)%char with true by reflexivity.
           now rewrite Ew.
    + destruct (IH (String.length s)) with (s := s)
        as [lits [names T]]; [subst; simpl; lia | reflexivity |].
      destruct T as [lit H | lit name rest lits names H Hne Hw Hr Ht].
      * exists [String c lit], []. constructor.
        destruct lit; simpl in *; [reflexivity|]. now rewrite Ec, H.
      * exists (String c lit :: lits), (name :: names).
        apply (tokenised_token (String c lit)); auto.
        destruct lit; simpl in *; [reflexivity|]. now rewrite Ec, H.
Qed.

Lemma no_missing_parameter (ps : list (string * any)) (names : list string) :
  ps = [] \/ has_keys names (VObj ps) = true ->
  forall name, In name names ->
    (if truthy (js_get (VObj ps) "length") && negb (js_in name (VObj ps))
     then Throw (Error ("Missing parameter: " ++ name)%string)
     else Ok (js_get (VObj ps) name))
    = Ok (js_get (VObj ps) name).
Proof.
  intros [-> | K] name Hin; [reflexivity|].
  unfold has_keys in K. rewrite forallb_forall in K.
  rewrite (K name Hin). simpl. now rewrite andb_false_r.
Qed.

(** C1 (amended): for a text that reads as [k] named tokens between
    literal stretches, and a mapping that is empty or has every
    referenced name as a key (own or inherited, as [in] tests it),
    [convertNamedParams] returns a query whose [sql] is the text with
    each token replaced, in place and in order, by one [?] (so it holds
    [k] more [?] than the input), whose [paramNames] are the [k] names
    in order of occurrence, repeated names included, and whose [values]
    are the [k] values [params[name]] of those names, position by
    position, looked up in the mapping and then in [Object.prototype]. *)
Theorem C1_convert_named_params (sql0 : string) (ps : list (string * any))
  (lits names : list string) :
  tokenised sql0 lits names ->
  ps = [] \/ has_keys names (VObj ps) = true ->
  exists q,
    convertNamedParams sql0 (VObj ps) = Ok q
    /\ orig q = Some (sql0, VObj ps)
    /\ sql q = with_placeholders lits
    /\ List.length lits = S (List.length names)
    /\ count_char qmark (sql q) = List.length names + count_char qmark sql0
    /\ paramNames q = Some names
    /\ List.length (values q) = List.length names
    /\ forall i name,
         nth_error names i = Some name ->
         nth_error (values q) i = Some (js_get (VObj ps) name).
Proof.
  intros T K. unfold convertNamedParams.
  rewrite (replace_tokens_tokenised _ _ _ T).
  rewrite (omap_pure _ (js_get (VObj ps)) names (no_missing_parameter ps names K)).
  cbn [obind]. eexists. split; [reflexivity|]. cbn.
  repeat split.
  - exact (tokenised_lengths _ _ _ T).
  - exact (count_placeholders _ _ _ T).
  - apply length_map.
  - intros i name Hi. now apply map_nth_error.
Qed.

Lemma tokenised_by_id_and_email :
  tokenised "SELECT * FROM Contact WHERE id = $id AND email = $email"
    ["SELECT * FROM Contact WHERE id = "; " AND email = "; ""]
    ["id"; "email"].
Proof.
  apply (tokenised_token "SELECT * FROM Contact WHERE id = " "id"
           " AND email = $email"); try reflexivity; [discriminate|].
  apply (tokenised_token " AND email = " "email" ""); try reflexivity;
    [discriminate|].
  now constructor.
Qed.

Lemma C1_convert_named_params_witness :
  exists q,
    convertNamedParams
      "SELECT * FROM Contact WHERE id = $id AND email = $email"
      (VObj [("email", VStr "jane@doe.org"); ("id", VNum 2)]) = Ok q
    /\ sql q = "SELECT * FROM Contact WHERE id = ? AND email = ?"
    /\ values q = [VNum 2; VStr "jane@doe.org"].
Proof.
  destruct (C1_convert_named_params
              "SELECT * FROM Contact WHERE id = $id AND email = $email"
              [("email", VStr "jane@doe.org"); ("id", VNum 2)]
              _ _ tokenised_by_id_and_email (or_intror eq_refl))
    as [q [E _]].
  exists q. split; [exact E|].
  vm_compute in E. injection E as <-. split; reflexivity.
Defined.

(** C1 as stated does not hold for every mapping: one with a truthy
    [length] entry and no key for a referenced name makes
    [convertNamedParams] throw instead of returning a query. *)
Lemma C1_counterexample :
  tokenised "SELECT $a" ["SELECT "; ""] ["a"]
  /\ convertNamedParams "SELECT $a" (VObj [("length", VNum 1)])
     = Throw (Error "Missing parameter: a")
  /\ ~ (exists q,
          convertNamedParams "SELECT $a" (VObj [("length", VNum 1)]) = Ok q).
Proof.
  split; [|split].
  - apply (tokenised_token "SELECT " "a" ""); try reflexivity; [discriminate|].
    now constructor.
  - reflexivity.
  - intros [q E]. discriminate E.
Qed.

(** C2 at its failing input: a non-empty mapping without the referenced
    key [id] is accepted; the slot is bound to [undefined] and no error
    is raised. *)
Theorem C2_missing_key_accepted :
  convertNamedParams "SELECT * FROM Contact WHERE id = $id"
    (VObj [("name", VStr "Jane Doe")])
  = Ok {| orig := Some ("SELECT * FROM Contact WHERE id = $id",
                        VObj [("name", VStr "Jane Doe")]);
          sql := "SELECT * FROM Contact WHERE id = ?";
          values := [VUndefined];
          paramNames := Some ["id"] |}.
Proof. reflexivity. Qed.

(** ** [run] *)

Lemma reply_at_shift (pool : Pool) (log : Log) (f : string)
  (rest : list string) (j : nat) :
  reply_at pool log (f :: rest) (S j)
  = reply_at pool (log ++ [frag_call f]) rest j.
Proof. unfold reply_at. simpl. now rewrite <- app_assoc. Qed.

Lemma reply_at_head (pool : Pool) (log : Log) (f : string)
  (rest : list string) :
  reply_at pool log (f :: rest) 0 = pool log (frag_call f).
Proof. unfold reply_at. simpl. now rewrite app_nil_r. Qed.

Lemma for_each_all_ok (pool : Pool) (frags : list string) (log : Log) :
  (forall j, j < List.length frags -> succeeds_at pool log frags j) ->
  for_each (run_fragment pool) frags log
  = (Ok tt, log ++ map frag_call frags).
Proof.
  revert log; induction frags as [|f rest IH]; intros log H; simpl.
  - now rewrite app_nil_r.
  - destruct (H 0) as [r E]; [simpl; lia|].
    rewrite reply_at_head in E.
    unfold bind at 1, run_fragment at 1, bind, native_query, ret.
    rewrite E, IH.
    + now rewrite <- app_assoc.
    + intros j Hj. unfold succeeds_at. rewrite <- reply_at_shift.
      apply H. simpl. lia.
Qed.

Lemma for_each_first_failure (pool : Pool) (frags : list string) (log : Log)
  (i : nat) (e : error) :
  i < List.length frags ->
  (forall j, j < i -> succeeds_at pool log frags j) ->
  reply_at pool log frags i = Throw e ->
  for_each (run_fragment pool) frags log
  = (Throw e, log ++ map frag_call (firstn (S i) frags)).
Proof.
  revert log i; induction frags as [|f rest IH]; intros log i L H F;
    [simpl in L; lia|].
  cbn [for_each].
  unfold bind at 1, run_fragment at 1, bind, native_query, ret.
  destruct i as [|i].
  - rewrite reply_at_head in F. rewrite F. reflexivity.
  - destruct (H 0) as [r E]; [lia|]. rewrite reply_at_head in E. rewrite E.
    rewrite reply_at_shift in F.
    rewrite (IH _ i); [| simpl in L; lia | | exact F].
    + change (firstn (S (S i)) (f :: rest)) with (f :: firstn (S i) rest).
      simpl. now rewrite <- app_assoc.
    + intros j Hj. unfold succeeds_at. rewrite <- reply_at_shift.
      apply H. lia.
Qed.

Lemma run_cases (st : DriverStatement) (ps : list any) (log : Log) :
  Driver.run st ps log
  = match params st (first_arg ps) with
    | Throw e => (Throw e, log)
    | Ok pv =>
        if Driver.no_values pv
        then for_each (run_fragment (native (connection st)))
               (splitSqlStatements (sql (query st))) log
        else (settled (native (connection st) log (query_call st pv false)),
              log ++ [query_call st pv false])
    end.
Proof.
  unfold Driver.run, bind at 1, lift.
  destruct (params st (first_arg ps)) as [pv | e]; [|reflexivity].
  destruct (Driver.no_values pv); [reflexivity|].
  unfold bind, native_query, ret, query_call, settled.
  now destruct (native (connection st) log _).
Qed.

(** C3 (amended): [run] first resolves the parameter source with
    [params]. If that throws, nothing is sent. If it yields no values
    ([undefined] or an empty list), the SQL is split and the fragments
    are sent one call each, in source order: all of them when each
    succeeds, and only those up to and including the first that fails,
    whose error is the result. If it yields a non-empty list, the whole
    SQL is sent in exactly one call with that list, unsplit. *)
Theorem C3_run (st : DriverStatement) (ps : list any) (log : Log) :
  let pool := native (connection st) in
  let frags := splitSqlStatements (sql (query st)) in
  (forall e,
      params st (first_arg ps) = Throw e ->
      Driver.run st ps log = (Throw e, log))
  /\ (forall pv,
        params st (first_arg ps) = Ok pv ->
        Driver.no_values pv = true ->
        ((forall j, j < List.length frags -> succeeds_at pool log frags j) ->
         Driver.run st ps log = (Ok tt, log ++ map frag_call frags))
        /\ (forall i e,
              i < List.length frags ->
              (forall j, j < i -> succeeds_at pool log frags j) ->
              reply_at pool log frags i = Throw e ->
              Driver.run st ps log
              = (Throw e, log ++ map frag_call (firstn (S i) frags))))
  /\ (forall vs,
        params st (first_arg ps) = Ok (Some vs) ->
        vs <> [] ->
        Driver.run st ps log
        = (settled (pool log (query_call st (Some vs) false)),
           log ++ [query_call st (Some vs) false])).
Proof.
  intros pool frags. rewrite run_cases. split; [|split].
  - intros e E. now rewrite E.
  - intros pv E N. rewrite E, N. split.
    + intros H. now apply for_each_all_ok.
    + intros i e L H F. now apply for_each_first_failure.
  - intros vs E N. rewrite E.
    destruct vs as [|v vs]; [congruence | reflexivity].
Qed.

Lemma C3_run_witness :
  Driver.run
    (positional (failing_pool "CREATE TABLE b(id INT)") three_tables []) [] []
  = (Throw (NativeError "ER_PARSE_ERROR"),
     [frag_call "CREATE TABLE a(id INT)"; frag_call "CREATE TABLE b(id INT)"])
  /\ Driver.run (positional empty_pool two_tables []) [] []
     = (Ok tt,
        [frag_call "CREATE TABLE a(id INT)"; frag_call "CREATE TABLE b(id INT);"])
  /\ Driver.run (positional empty_pool two_tables [VNum 0]) [VArr [VNum 7]] []
     = (Ok tt,
        [ {| call_sql := two_tables; call_values := Some [VNum 7];
             call_rowsAsArray := false |} ]).
Proof.
  split; [|split].
  - destruct (C3_run
                (positional (failing_pool "CREATE TABLE b(id INT)") three_tables [])
                [] []) as [_ [H _]].
    destruct (H None eq_refl eq_refl) as [_ F].
    apply (F 1 (NativeError "ER_PARSE_ERROR")).
    + simpl. lia.
    + intros j Hj. assert (j = 0) as -> by lia. now eexists.
    + reflexivity.
  - destruct (C3_run (positional empty_pool two_tables []) [] [])
      as [_ [H _]].
    destruct (H None eq_refl eq_refl) as [A _].
    apply A. intros j _. now eexists.
  - destruct (C3_run (positional empty_pool two_tables [VNum 0])
                [VArr [VNum 7]] []) as [_ [_ H]].
    apply (H [VNum 7] eq_refl). discriminate.
Defined.

(** C3 as stated fails on an empty mapping given to a statement with
    named tokens: [params] binds [null] to each name, so the
    two-statement script is sent whole, in one call, and is not split.
    It fails the other way on a non-empty mapping given to a statement
    without tokens: [params] yields no values and the script is split. *)
Lemma C3_counterexample :
  prepare (stub_conn empty_pool) (Raw two_inserts) []
  = Ok {| stmt_native := named empty_pool two_inserts two_inserts_sql ["x"; "x"];
          _as := None |}
  /\ splitSqlStatements two_inserts_sql
     = ["INSERT INTO a VALUES (?)"; "INSERT INTO b VALUES (?)"]
  /\ Statement.run
       {| stmt_native := named empty_pool two_inserts two_inserts_sql ["x"; "x"];
          _as := None |}
       [VObj []] []
     = (Ok tt,
        [ {| call_sql := two_inserts_sql;
             call_values := Some [VNull; VNull];
             call_rowsAsArray := false |} ])
  /\ snd (Statement.run
            {| stmt_native := named empty_pool two_inserts two_inserts_sql ["x"; "x"];
               _as := None |}
            [VObj []] [])
     <> map frag_call (splitSqlStatements two_inserts_sql)
  /\ prepare (stub_conn empty_pool) (Raw two_tables) []
     = Ok {| stmt_native := named empty_pool two_tables two_tables [];
             _as := None |}
  /\ Statement.run
       {| stmt_native := named empty_pool two_tables two_tables [];
          _as := None |}
       [VObj [("a", VNum 1)]] []
     = (Ok tt,
        [frag_call "CREATE TABLE a(id INT)"; frag_call "CREATE TABLE b(id INT);"]).
Proof. repeat split. discriminate. Qed.

(** ** Fetching *)

Lemma arrays_cases (st : DriverStatement) (ps : list any) (log : Log) :
  Driver.arrays st ps log
  = match params st (first_arg ps) with
    | Throw e => (Throw e, log)
    | Ok pv => (native (connection st) log (query_call st pv true),
                log ++ [query_call st pv true])
    end.
Proof.
  unfold Driver.arrays, bind, lift.
  now destruct (params st (first_arg ps)).
Qed.

Lemma all_cases (st : DriverStatement) (ps : list any) (log : Log) :
  Driver.all st ps log
  = match params st (first_arg ps) with
    | Throw e => (Throw e, log)
    | Ok pv => (native (connection st) log (query_call st pv false),
                log ++ [query_call st pv false])
    end.
Proof.
  unfold Driver.all, bind, lift.
  now destruct (params st (first_arg ps)).
Qed.

Lemma get_cases (st : DriverStatement) (ps : list any) (log : Log) :
  Driver.get st ps log
  = match params st (first_arg ps) with
    | Throw e => (Throw e, log)
    | Ok pv =>
        (match native (connection st) log (query_call st pv false) with
         | Ok r => Ok (js_or (result_at r 0) VNull)
         | Throw e => Throw e
         end,
         log ++ [query_call st pv false])
    end.
Proof.
  unfold Driver.get, bind, lift.
  destruct (params st (first_arg ps)) as [pv | e]; [|reflexivity].
  unfold unwrapQuery, native_query, query_call, ret.
  now destruct (native (connection st) log _).
Qed.

(** C4 on a query that matches no row: [one] and [value] return
    [null], but [array] returns [undefined], the missing first element
    of the empty row list; each of the three makes one native call. *)
Theorem C4_zero_rows_first (st : MySqlStatement) (ps : list any) (log : Log)
  (pv : option (list any)) :
  params (stmt_native st) (first_arg ps) = Ok pv ->
  (forall asArray,
      native (connection (stmt_native st)) log
        (query_call (stmt_native st) pv asArray) = Ok (RowData [])) ->
  Statement.one st ps log
  = (Ok VNull, log ++ [query_call (stmt_native st) pv false])
  /\ Statement.value st ps log
     = (Ok VNull, log ++ [query_call (stmt_native st) pv true])
  /\ Statement.array st ps log
     = (Ok VUndefined, log ++ [query_call (stmt_native st) pv true]).
Proof.
  intros E Z. split; [|split].
  - unfold Statement.one, bind at 1. rewrite get_cases, E, (Z false).
    reflexivity.
  - unfold Statement.value, bind at 1. rewrite arrays_cases, E, (Z true).
    reflexivity.
  - unfold Statement.array, Driver.array, bind at 1.
    rewrite arrays_cases, E, (Z true). reflexivity.
Qed.

Lemma C4_zero_rows_first_witness :
  Statement.array
    {| stmt_native := positional empty_pool "SELECT * FROM Contact WHERE id = ?" [VNum 0];
       _as := None |}
    [VArr [VNum 404]] []
  = (Ok VUndefined,
     [ {| call_sql := "SELECT * FROM Contact WHERE id = ?";
          call_values := Some [VNum 404];
          call_rowsAsArray := true |} ]).
Proof.
  apply (C4_zero_rows_first
           {| stmt_native := positional empty_pool
                               "SELECT * FROM Contact WHERE id = ?" [VNum 0];
              _as := None |}
           [VArr [VNum 404]] [] (Some [VNum 404])); reflexivity.
Defined.

(** C5: on a query that matches no row, [all] and [column] return the
    empty list and [arrays] the empty row list; none of them returns
    [null] or [undefined]. *)
Theorem C5_zero_rows_all (st : MySqlStatement) (ps : list any) (log : Log)
  (pv : option (list any)) :
  params (stmt_native st) (first_arg ps) = Ok pv ->
  (forall asArray,
      native (connection (stmt_native st)) log
        (query_call (stmt_native st) pv asArray) = Ok (RowData [])) ->
  Statement.all st ps log
  = (Ok [], log ++ [query_call (stmt_native st) pv false])
  /\ Statement.column st ps log
     = (Ok [], log ++ [query_call (stmt_native st) pv true])
  /\ Statement.arrays st ps log
     = (Ok (RowData []), log ++ [query_call (stmt_native st) pv true]).
Proof.
  intros E Z. split; [|split].
  - unfold Statement.all, bind at 1. rewrite all_cases, E, (Z false).
    reflexivity.
  - unfold Statement.column, bind at 1. rewrite arrays_cases, E, (Z true).
    reflexivity.
  - unfold Statement.arrays. rewrite arrays_cases, E, (Z true). reflexivity.
Qed.

Lemma C5_zero_rows_all_witness :
  Statement.all
    {| stmt_native := named empty_pool "SELECT * FROM Contact WHERE id = $id"
                        "SELECT * FROM Contact WHERE id = ?" ["id"];
       _as := Some "Contact" |}
    [VObj [("id", VNum 404)]] []
  = (Ok [],
     [ {| call_sql := "SELECT * FROM Contact WHERE id = ?";
          call_values := Some [VNum 404];
          call_rowsAsArray := false |} ])
  /\ Statement.column
       {| stmt_native := named empty_pool "SELECT * FROM Contact WHERE id = $id"
                           "SELECT * FROM Contact WHERE id = ?" ["id"];
          _as := Some "Contact" |}
       [VObj [("id", VNum 404)]] []
     = (Ok [],
        [ {| call_sql := "SELECT * FROM Contact WHERE id = ?";
             call_values := Some [VNum 404];
             call_rowsAsArray := true |} ]).
Proof.
  destruct (C5_zero_rows_all
              {| stmt_native := named empty_pool
                                  "SELECT * FROM Contact WHERE id = $id"
                                  "SELECT * FROM Contact WHERE id = ?" ["id"];
                 _as := Some "Contact" |}
              [VObj [("id", VNum 404)]] [] (Some [VNum 404])
              eq_refl (fun _ => eq_refl)) as [A [C _]].
  split; [exact A | exact C].
Defined.

(** ** Materialization *)

(** C7: [result] maps [null] to [null] whatever the target type; without
    a target type it returns the row as it is; with one it replaces an
    object row by an instance constructed from it. [all] and [one] pass
    what the driver returned through [result]; [arrays], [array],
    [column] and [value] return the same raw values whatever target type
    is attached. *)
Theorem C7_materialization (d : DriverStatement) (target : option Constructor)
  (ps : list any) (log : Log) :
  result {| stmt_native := d; _as := target |} VNull = VNull
  /\ (forall o, o <> VUndefined ->
        result {| stmt_native := d; _as := None |} o = o)
  /\ (forall t row,
        result {| stmt_native := d; _as := Some t |} (VObj row)
        = VInst t (VObj row))
  /\ (forall rows log',
        Driver.all d ps log = (Ok (RowData rows), log') ->
        Statement.all {| stmt_native := d; _as := target |} ps log
        = (Ok (map (result {| stmt_native := d; _as := target |}) rows), log'))
  /\ (forall o log',
        Driver.get d ps log = (Ok o, log') ->
        Statement.one {| stmt_native := d; _as := target |} ps log
        = (Ok (result {| stmt_native := d; _as := target |} o), log'))
  /\ Statement.arrays {| stmt_native := d; _as := target |} ps log
     = Statement.arrays {| stmt_native := d; _as := None |} ps log
  /\ Statement.array {| stmt_native := d; _as := target |} ps log
     = Statement.array {| stmt_native := d; _as := None |} ps log
  /\ Statement.column {| stmt_native := d; _as := target |} ps log
     = Statement.column {| stmt_native := d; _as := None |} ps log
  /\ Statement.value {| stmt_native := d; _as := target |} ps log
     = Statement.value {| stmt_native := d; _as := None |} ps log.
Proof.
  repeat split.
  - intros o H. destruct o; try reflexivity. congruence.
  - intros rows log' E. unfold Statement.all, bind. cbn [stmt_native].
    rewrite E. unfold lift, result_map.
    now rewrite (omap_pure _ (result {| stmt_native := d; _as := target |})).
  - intros o log' E. unfold Statement.one, bind. cbn [stmt_native].
    now rewrite E.
Qed.

Lemma C7_materialization_witness :
  Statement.all
    {| stmt_native :=
         positional (fun _ _ => Ok (RowData [VObj [("name", VStr "Jane")]; VNull]))
           "SELECT name FROM Contact" [];
       _as := Some "Contact" |} [] []
  = (Ok [VInst "Contact" (VObj [("name", VStr "Jane")]); VNull],
     [ {| call_sql := "SELECT name FROM Contact"; call_values := None;
          call_rowsAsArray := false |} ]).
Proof.
  destruct (C7_materialization
              (positional
                 (fun _ _ => Ok (RowData [VObj [("name", VStr "Jane")]; VNull]))
                 "SELECT name FROM Contact" [])
              (Some "Contact") [] []) as [_ [_ [_ [A _]]]].
  exact (A _ _ eq_refl).
Defined.

(** ** Row mutations *)

(** C8: [insert] without a row and [insertAll] of no rows return
    [{changes: 0, lastInsertRowid: 0}] at once; the log of native calls
    is left as it was. *)
Theorem C8_nothing_to_insert (conn : MySqlConnection)
  (options : option Options) (log : Log) :
  Db.insert conn None options log
  = (Ok {| changes := 0; lastInsertRowid := 0 |}, log)
  /\ Db.insertAll conn [] options log
     = (Ok {| changes := 0; lastInsertRowid := 0 |}, log).
Proof. split; reflexivity. Qed.

Lemma set_from_In (xs : list string) (x : string) :
  In x (set_from xs) <-> In x xs.
Proof.
  induction xs as [|y xs IH]; simpl; [tauto|].
  rewrite filter_In, IH.
  destruct (String.eqb_spec x y) as [-> | N]; simpl.
  - intuition.
  - split; [tauto|]. intros [-> | H]; [congruence | auto].
Qed.

Lemma NoDup_filter (P : string -> bool) (xs : list string) :
  NoDup xs -> NoDup (filter P xs).
Proof.
  induction 1 as [|x xs N D IH]; simpl; [constructor|].
  destruct (P x); [|assumption].
  constructor; [|assumption].
  rewrite filter_In. tauto.
Qed.

Lemma set_from_NoDup (xs : list string) : NoDup (set_from xs).
Proof.
  induction xs as [|y xs IH]; simpl; constructor.
  - rewrite filter_In. intros [_ H]. now rewrite String.eqb_refl in H.
  - now apply NoDup_filter.
Qed.

(** What [update] binds on its filtering branch: the requested names
    and the names of the primary-key columns, each once. *)
Lemma update_onlyProps_union (row : ClassInstance) (options : option Options) :
  NoDup (update_onlyProps row options)
  /\ forall x,
       In x (update_onlyProps row options)
       <-> In x (requested_props row options)
           \/ In x (pkNames (constructor row)).
Proof.
  unfold update_onlyProps. split; [apply set_from_NoDup|].
  intros x. now rewrite set_from_In, in_app_iff.
Qed.

Lemma update_filtering (conn : MySqlConnection) (row : ClassInstance)
  (options : option Options) :
  filtering options = true ->
  Db.update conn (Some row) options
  = (stmt <- lift (prepare conn
                     (Raw (schema_update (schema conn) (constructor row)
                             (Some (update_onlyProps row options)))) []) ;;
     Statement.exec stmt
       [toDbObject (schema conn) row (Some (update_onlyProps row options))]).
Proof. intros F. unfold Db.update. now rewrite F. Qed.

(** Where every primary-key column is named after its property,
    [pkNames] are the primary-key property names. *)
Lemma pkNames_unaliased (cls : ReflectMeta) :
  (forall x c, In x (props cls) -> column x = Some c ->
               column_name c = prop_name x) ->
  pkNames cls = pk_prop_names cls.
Proof.
  unfold pkNames, pk_prop_names.
  induction (props cls) as [|x xs IH]; intros H; simpl; [reflexivity|].
  assert (IH' : flat_map
                  (fun x => match column x with
                            | Some c => [column_name c]
                            | None => []
                            end) (filter is_primaryKey xs)
                = map prop_name (filter is_primaryKey xs)).
  { apply IH. intros y c Hy. apply H. now right. }
  destruct (is_primaryKey x) eqn:K; [|exact IH'].
  unfold is_primaryKey in K. simpl.
  destruct (column x) as [c|] eqn:E; [|discriminate K].
  simpl. rewrite IH'. f_equal.
  exact (H x c (or_introl eq_refl) E).
Qed.

(** C9 at its failing input: the primary key of [Contact] is the
    property [id], stored in the column [contact_id]; updating with
    [onlyProps: ['email']] binds [email] and [contact_id], and not
    [id]. *)
Theorem C9_update_binds_column_names :
  pk_prop_names Contact = ["id"]
  /\ update_onlyProps jane
       (Some {| onlyProps := Some ["email"]; onlyWithValues := false |})
     = ["email"; "contact_id"]
  /\ ~ In "id"
         (update_onlyProps jane
            (Some {| onlyProps := Some ["email"]; onlyWithValues := false |})).
Proof.
  repeat split.
  simpl. intros [H | [H | []]]; discriminate H.
Qed.

(** ** Values bound to named slots *)

Lemma bound_value_defined (m : list (string * any)) (name : string) :
  bound_value m name <> VUndefined.
Proof.
  unfold bound_value. destruct (assoc name m) as [v|].
  - destruct v; simpl; discriminate.
  - destruct (inherited (VObj []) name) as [v|]; [|discriminate].
    destruct v; simpl; discriminate.
Qed.

Lemma coalesce_bound (m : list (string * any)) (name : string) :
  js_coalesce (js_get (VObj m) name) VNull = bound_value m name.
Proof.
  unfold js_get, lookup, bound_value, js_coalesce. cbn [own_props].
  destruct (assoc name m) as [v|]; [reflexivity|].
  change (inherited (VObj m) name) with (inherited (VObj []) name).
  now destruct (inherited (VObj []) name).
Qed.

Lemma params_named (st : DriverStatement) (names : list string)
  (m : list (string * any)) :
  paramNames (query st) = Some names ->
  names <> [] ->
  params st (VObj m) = Ok (Some (map (bound_value m) names)).
Proof.
  intros E N. unfold params, names_of. rewrite E.
  destruct names as [|n names]; [congruence|]. cbn [nonempty andb IS_rec].
  change (IS_rec (VObj m)) with true. cbn [andb].
  do 2 f_equal. apply map_ext. intros a. apply coalesce_bound.
Qed.

(** A mapping given to a statement without names or slots binds
    nothing. *)
Lemma params_unnamed_mapping (st : DriverStatement) (m : list (string * any)) :
  names_of (query st) = [] ->
  values (query st) = [] ->
  params st (VObj m) = Ok None.
Proof. intros N V. unfold params. now rewrite N, V. Qed.

(** The empty mapping still binds one value to every name: what a
    plain object inherits under it, else [null]. *)
Lemma params_named_empty (st : DriverStatement) (names : list string) :
  paramNames (query st) = Some names ->
  names <> [] ->
  params st (VObj []) = Ok (Some (map (bound_value []) names)).
Proof. intros E N. exact (params_named st names [] E N). Qed.

(** C10 (amended): for a statement with recorded names invoked with a
    mapping, the list handed to the driver has one entry per name, in
    recorded order. The entry is the mapping's value under the name, or
    [null] when that value is [null] or [undefined]; for a name the
    mapping has no key for, it is what the mapping inherits from
    [Object.prototype] under that name, and [null] when it inherits
    nothing. No entry is [undefined]. [all], [get], [arrays] and [run]
    send exactly this list. *)
Theorem C10_named_slots_bound (st : DriverStatement) (names : list string)
  (m : list (string * any)) (ps : list any) (log : Log) :
  paramNames (query st) = Some names ->
  names <> [] ->
  first_arg ps = VObj m ->
  exists vs,
    params st (first_arg ps) = Ok (Some vs)
    /\ List.length vs = List.length names
    /\ (forall i name,
          nth_error names i = Some name ->
          nth_error vs i = Some (bound_value m name))
    /\ Forall (fun v => v <> VUndefined) vs
    /\ snd (Driver.all st ps log) = log ++ [query_call st (Some vs) false]
    /\ snd (Driver.get st ps log) = log ++ [query_call st (Some vs) false]
    /\ snd (Driver.arrays st ps log) = log ++ [query_call st (Some vs) true]
    /\ snd (Driver.run st ps log) = log ++ [query_call st (Some vs) false].
Proof.
  intros E N A. exists (map (bound_value m) names).
  pose proof (params_named st names m E N) as P. rewrite <- A in P.
  repeat split.
  - exact P.
  - apply length_map.
  - intros i name Hi. now apply map_nth_error.
  - apply Forall_forall. intros v Hv. apply in_map_iff in Hv.
    destruct Hv as [name [<- _]]. apply bound_value_defined.
  - now rewrite all_cases, P.
  - now rewrite get_cases, P.
  - now rewrite arrays_cases, P.
  - rewrite run_cases, P.
    destruct names as [|n names]; [congruence | reflexivity].
Qed.

Lemma C10_named_slots_bound_witness :
  exists vs,
    params
      (named empty_pool
         "UPDATE Contact SET email=$email, name=$name WHERE id=$id"
         "UPDATE Contact SET email=?, name=? WHERE id=?"
         ["email"; "name"; "id"])
      (VObj [("id", VNum 2); ("email", VUndefined)])
    = Ok (Some vs)
    /\ vs = [VNull; VNull; VNum 2]
    /\ Forall (fun v => v <> VUndefined) vs.
Proof.
  destruct (C10_named_slots_bound
              (named empty_pool
                 "UPDATE Contact SET email=$email, name=$name WHERE id=$id"
                 "UPDATE Contact SET email=?, name=? WHERE id=?"
                 ["email"; "name"; "id"])
              ["email"; "name"; "id"]
              [("id", VNum 2); ("email", VUndefined)]
              [VObj [("id", VNum 2); ("email", VUndefined)]] []
              eq_refl ltac:(discriminate) eq_refl)
    as [vs [P [_ [_ [D _]]]]].
  exists vs. split; [exact P|]. split; [|exact D].
  vm_compute in P. now injection P as <-.
Defined.

(** C10 as stated fails for a name that the mapping has no key for but
    a plain object inherits: [$constructor] with [{id: 1}] is bound to
    the function [Object], not to [null]. *)
Lemma C10_counterexample :
  assoc "constructor" [("id", VNum 1)] = None
  /\ params
       (named empty_pool "SELECT $constructor" "SELECT ?" ["constructor"])
       (VObj [("id", VNum 1)])
     = Ok (Some [VFun "Object"])
  /\ VFun "Object" <> VNull.
Proof. repeat split. discriminate. Qed.

(** * Further properties of the code *)

(** ** [convertNamedParams], whatever the parameter source *)

Lemma omap_length {A B} (f : A -> outcome B) (xs : list A) (ys : list B) :
  omap f xs = Ok ys -> List.length ys = List.length xs.
Proof.
  revert ys; induction xs as [|x xs IH]; intros ys; simpl.
  - now intros [= <-].
  - destruct (f x) as [y|e]; [|discriminate]. simpl.
    destruct (omap f xs) as [ys'|e]; [|discriminate]. simpl.
    intros [= <-]. simpl. now rewrite (IH ys').
Qed.

Lemma omap_nth {A B} (f : A -> outcome B) (xs : list A) (ys : list B) :
  omap f xs = Ok ys ->
  forall i x, nth_error xs i = Some x ->
    exists y, nth_error ys i = Some y /\ f x = Ok y.
Proof.
  revert ys; induction xs as [|x xs IH]; intros ys; simpl.
  - intros _ [|i] z H; discriminate H.
  - destruct (f x) as [y|e] eqn:Fx; [|discriminate]. simpl.
    destruct (omap f xs) as [ys'|e]; [|discriminate]. simpl.
    intros [= <-] [|i] z H; simpl in *.
    + injection H as <-. now exists y.
    + now apply (IH ys').
Qed.

Lemma omap_first_throw {A B} (f : A -> outcome B) (pre post : list A)
  (x : A) (e : error) :
  (forall y, In y pre -> exists b, f y = Ok b) ->
  f x = Throw e ->
  omap f (pre ++ x :: post) = Throw e.
Proof.
  intros H Fx. induction pre as [|y pre IH]; simpl.
  - now rewrite Fx.
  - destruct (H y) as [b ->]; [now left|]. simpl.
    rewrite IH; [reflexivity|]. intros z Hz. apply H. now right.
Qed.

Lemma convert_unfold (sql0 : string) (params : any)
  (lits names : list string) :
  tokenised sql0 lits names ->
  convertNamedParams sql0 params
  = obind
      (omap (fun name =>
               if truthy (js_get params "length") && negb (js_in name params)
               then Throw (Error ("Missing parameter: " ++ name)%string)
               else Ok (js_get params name))
            names)
      (fun vals =>
         Ok {| orig := Some (sql0, params);
               sql := with_placeholders lits;
               values := vals;
               paramNames := Some names |}).
Proof.
  intros T. unfold convertNamedParams.
  now rewrite (replace_tokens_tokenised _ _ _ T).
Qed.

(** X1: whenever [convertNamedParams] returns, for any mapping, the
    query keeps the original text and mapping in [orig], its [sql] is
    the text with every token replaced by [?], its [paramNames] are the
    token names in order and its [values] has one entry per name: the
    mapping's own value under that name, else what a plain object
    inherits under it, else [undefined]. *)
Theorem X1_convert_result_shape (sql0 : string) (ps : list (string * any))
  (q : DriverStatementQuery) (lits names : list string) :
  tokenised sql0 lits names ->
  convertNamedParams sql0 (VObj ps) = Ok q ->
  orig q = Some (sql0, VObj ps)
  /\ sql q = with_placeholders lits
  /\ paramNames q = Some names
  /\ List.length (values q) = List.length names
  /\ forall i name,
       nth_error names i = Some name ->
       nth_error (values q) i
       = Some match assoc name ps with
              | Some v => v
              | None =>
                  match inherited (VObj []) name with
                  | Some v => v
                  | None => VUndefined
                  end
              end.
Proof.
  intros T. rewrite (convert_unfold _ (VObj ps) _ _ T).
  destruct (omap _ names) as [vals|e] eqn:E; [|discriminate].
  simpl. intros [= <-]. cbn. repeat split.
  - exact (omap_length _ _ _ E).
  - intros i name Hi.
    destruct (omap_nth _ _ _ E i name Hi) as [y [Hy Fy]].
    rewrite Hy. f_equal.
    destruct (truthy _ && negb _); [discriminate Fy|].
    injection Fy as <-. unfold js_get, lookup. cbn [own_props].
    now destruct (assoc name ps).
Qed.

Lemma tokenised_a_twice :
  tokenised "SELECT $a, $a" ["SELECT "; ", "; ""] ["a"; "a"].
Proof.
  token "SELECT " "a" ", $a". token ", " "a" "". now constructor.
Qed.

Lemma X1_convert_result_shape_witness :
  exists q,
    convertNamedParams "SELECT $a, $a" (VObj [("a", VNum 1)]) = Ok q
    /\ sql q = "SELECT ?, ?"
    /\ paramNames q = Some ["a"; "a"]
    /\ List.length (values q) = 2.
Proof.
  eexists. split; [reflexivity|].
  destruct (X1_convert_result_shape "SELECT $a, $a" [("a", VNum 1)] _
              _ _ tokenised_a_twice eq_refl) as [_ [S [N [L _]]]].
  exact (conj S (conj N L)).
Defined.

(** X2: when a mapping has a truthy [length] entry and some referenced
    name is neither a key of it nor inherited from [Object.prototype],
    [convertNamedParams] throws [Missing parameter: n], where [n] is the
    first such name in order of occurrence. *)
Theorem X2_first_missing_parameter (sql0 : string) (ps : list (string * any))
  (lits pre post : list string) (n : string) (len : any) :
  tokenised sql0 lits (pre ++ n :: post) ->
  assoc "length" ps = Some len ->
  truthy len = true ->
  (forall name, In name pre ->
     assoc name ps <> None \/ inherited (VObj []) name <> None) ->
  assoc n ps = None ->
  inherited (VObj []) n = None ->
  convertNamedParams sql0 (VObj ps)
  = Throw (Error ("Missing parameter: " ++ n)%string).
Proof.
  intros T Hl L K' M1 M2.
  assert (L' : truthy (js_get (VObj ps) "length") = true).
  { unfold js_get, lookup. cbn [own_props]. now rewrite Hl. }
  assert (M : js_in n (VObj ps) = false).
  { unfold js_in, lookup. cbn [own_props]. rewrite M1.
    change (inherited (VObj ps) n) with (inherited (VObj []) n).
    now rewrite M2. }
  assert (K : has_keys pre (VObj ps) = true).
  { unfold has_keys. apply forallb_forall. intros name Hn.
    unfold js_in, lookup. cbn [own_props].
    destruct (assoc name ps) eqn:E1; [reflexivity|].
    change (inherited (VObj ps) name) with (inherited (VObj []) name).
    destruct (inherited (VObj []) name) eqn:E2; [reflexivity|].
    destruct (K' name Hn); congruence. }
  clear Hl L K' M1 M2. rename L' into L.
  rewrite (convert_unfold _ (VObj ps) _ _ T).
  rewrite (omap_first_throw _ pre post n
             (Error ("Missing parameter: " ++ n)%string)); [reflexivity | |].
  - intros y Hy. unfold has_keys in K. rewrite forallb_forall in K.
    rewrite (K y Hy), andb_false_r. now eexists.
  - now rewrite L, M.
Qed.

Lemma tokenised_a_b_c :
  tokenised "$a $b $c" [""; " "; " "; ""] ["a"; "b"; "c"].
Proof.
  token "" "a" " $b $c". token " " "b" " $c". token " " "c" "".
  now constructor.
Qed.

Lemma X2_first_missing_parameter_witness :
  convertNamedParams "$a $b $c" (VObj [("length", VNum 3); ("a", VNum 1)])
  = Throw (Error "Missing parameter: b").
Proof.
  apply (X2_first_missing_parameter "$a $b $c"
           [("length", VNum 3); ("a", VNum 1)]
           [""; " "; " "; ""] ["a"] ["c"] "b" (VNum 3) tokenised_a_b_c);
    try reflexivity.
  intros name [<- | []]. left. discriminate.
Defined.

(** X3: a text in which no [$] is directly followed by a word character
    is returned as it is, with no values and no names, and never
    throws, whatever the parameter source. *)
Theorem X3_plain_text_unchanged (sql0 : string) (params : any) :
  has_token sql0 = false ->
  convertNamedParams sql0 params
  = Ok {| orig := Some (sql0, params); sql := sql0; values := [];
          paramNames := Some [] |}.
Proof.
  intros H.
  now rewrite (convert_unfold sql0 params [sql0] [] (tokenised_end sql0 H)).
Qed.

Lemma X3_plain_text_unchanged_witness :
  convertNamedParams "SELECT price, '$' FROM t WHERE cost > ?"
    (VObj [("length", VNum 1)])
  = Ok {| orig := Some ("SELECT price, '$' FROM t WHERE cost > ?",
                        VObj [("length", VNum 1)]);
          sql := "SELECT price, '$' FROM t WHERE cost > ?";
          values := []; paramNames := Some [] |}.
Proof.
  apply (X3_plain_text_unchanged "SELECT price, '$' FROM t WHERE cost > ?").
  reflexivity.
Defined.

(** ** [prepare] *)

Lemma template_sql_concat (strings : list string) (i n : nat) :
  i + List.length strings = S n ->
  template_sql i n strings = String.concat "?" strings.
Proof.
  revert i; induction strings as [|p rest IH]; intros i L; [reflexivity|].
  cbn [template_sql]. cbn [List.length] in L.
  destruct rest as [|q rest].
  - cbn [List.length] in L.
    replace (i <? n)%nat with false by (symmetry; apply Nat.ltb_ge; lia).
    simpl. now rewrite append_nil_r.
  - cbn [List.length] in L.
    replace (i <? n)%nat with true by (symmetry; apply Nat.ltb_lt; lia).
    rewrite (IH (S i)) by (cbn [List.length]; lia). reflexivity.
Qed.

(** X4: preparing a template literal with one more piece than values
    never fails: the statement's SQL is the pieces joined by one [?]
    per value, its values are the interpolated values in order, and it
    has no names and no target type. *)
Theorem X4_prepare_template (conn : MySqlConnection) (strings : list string)
  (ps : list any) :
  List.length strings = S (List.length ps) ->
  prepare conn (Template strings) ps
  = Ok {| stmt_native :=
            {| connection := conn;
               query := {| orig := None;
                           sql := String.concat "?" strings;
                           values := ps;
                           paramNames := None |} |};
          _as := None |}.
Proof.
  intros L. unfold prepare, forPositionalParams. simpl.
  now rewrite template_sql_concat by (simpl; lia).
Qed.

Lemma X4_prepare_template_witness :
  prepare (stub_conn empty_pool)
    (Template ["INSERT INTO Contact(name,email) VALUES ("; ", "; ")"])
    [VStr "Alice"; VStr "alice@mail.org"]
  = Ok {| stmt_native :=
            positional empty_pool
              "INSERT INTO Contact(name,email) VALUES (?, ?)"
              [VStr "Alice"; VStr "alice@mail.org"];
          _as := None |}.
Proof.
  apply (X4_prepare_template (stub_conn empty_pool)
           ["INSERT INTO Contact(name,email) VALUES ("; ", "; ")"]
           [VStr "Alice"; VStr "alice@mail.org"]).
  reflexivity.
Defined.

Lemma convert_without_length (sql0 : string) (params : any)
  (lits names : list string) :
  tokenised sql0 lits names ->
  truthy (js_get params "length") = false ->
  convertNamedParams sql0 params
  = Ok {| orig := Some (sql0, params);
          sql := with_placeholders lits;
          values := map (js_get params) names;
          paramNames := Some names |}.
Proof.
  intros T L. rewrite (convert_unfold _ params _ _ T).
  rewrite (omap_pure _ (js_get params)); [reflexivity|].
  intros name _. now rewrite L.
Qed.

Lemma prepare_text (conn : MySqlConnection) (text : string)
  (lits names : list string) :
  tokenised text lits names ->
  prepare conn (Raw text) []
  = Ok {| stmt_native :=
            {| connection := conn;
               query := {| orig := Some (text, VArr []);
                           sql := with_placeholders lits;
                           values := map (js_get (VArr [])) names;
                           paramNames := Some names |} |};
          _as := None |}.
Proof.
  intros T. unfold prepare, forNamedParams. simpl.
  now rewrite (convert_without_length text (VArr []) lits names T eq_refl).
Qed.

(** X5: preparing a text without further arguments never fails,
    whatever the text: the statement's SQL is the text with each named
    token replaced by [?], and it records one name and one value slot
    per token. *)
Theorem X5_prepare_text_total (conn : MySqlConnection) (text : string) :
  exists st lits names,
    prepare conn (Raw text) [] = Ok st
    /\ tokenised text lits names
    /\ connection (stmt_native st) = conn
    /\ sql (query (stmt_native st)) = with_placeholders lits
    /\ paramNames (query (stmt_native st)) = Some names
    /\ List.length (values (query (stmt_native st))) = List.length names
    /\ _as st = None.
Proof.
  destruct (tokenised_total text) as [lits [names T]].
  eexists. exists lits, names.
  rewrite (prepare_text conn text lits names T).
  split; [reflexivity|]. cbn. repeat split; try assumption.
  apply length_map.
Qed.

(** ** Statement operations: what reaches the driver and what comes back *)

Lemma stmt_all_cases (st : MySqlStatement) (ps : list any) (log : Log) :
  Statement.all st ps log
  = one_call st ps log false (result_map (fun x => Ok (result st x))).
Proof.
  unfold Statement.all, bind at 1, one_call. rewrite all_cases.
  destruct (params (stmt_native st) (first_arg ps)); [|reflexivity].
  now destruct (native (connection (stmt_native st)) log _).
Qed.

Lemma stmt_one_cases (st : MySqlStatement) (ps : list any) (log : Log) :
  Statement.one st ps log
  = one_call st ps log false (fun r => Ok (result st (js_or (result_at r 0) VNull))).
Proof.
  unfold Statement.one, bind at 1, one_call. rewrite get_cases.
  destruct (params (stmt_native st) (first_arg ps)); [|reflexivity].
  now destruct (native (connection (stmt_native st)) log _).
Qed.

Lemma stmt_arrays_cases (st : MySqlStatement) (ps : list any) (log : Log) :
  Statement.arrays st ps log = one_call st ps log true (fun r => Ok r).
Proof.
  unfold Statement.arrays, one_call. rewrite arrays_cases.
  destruct (params (stmt_native st) (first_arg ps)); [|reflexivity].
  now destruct (native (connection (stmt_native st)) log _).
Qed.

Lemma stmt_array_cases (st : MySqlStatement) (ps : list any) (log : Log) :
  Statement.array st ps log = one_call st ps log true (fun r => Ok (result_at r 0)).
Proof.
  unfold Statement.array, Driver.array, bind at 1, one_call.
  rewrite arrays_cases.
  destruct (params (stmt_native st) (first_arg ps)); [|reflexivity].
  now destruct (native (connection (stmt_native st)) log _).
Qed.

Lemma stmt_column_cases (st : MySqlStatement) (ps : list any) (log : Log) :
  Statement.column st ps log = one_call st ps log true (result_map (js_at 0)).
Proof.
  unfold Statement.column, bind at 1, one_call. rewrite arrays_cases.
  destruct (params (stmt_native st) (first_arg ps)); [|reflexivity].
  now destruct (native (connection (stmt_native st)) log _).
Qed.

Lemma stmt_value_cases (st : MySqlStatement) (ps : list any) (log : Log) :
  Statement.value st ps log
  = one_call st ps log true
      (fun r => obind (result_map (js_at 0) r)
                  (fun col => Ok (js_coalesce (nth 0 col VUndefined) VNull))).
Proof.
  unfold Statement.value, bind at 1, one_call. rewrite arrays_cases.
  destruct (params (stmt_native st) (first_arg ps)); [|reflexivity].
  destruct (native (connection (stmt_native st)) log _) as [r|e];
    [|reflexivity].
  unfold bind, lift, ret. simpl. now destruct (result_map (js_at 0) r).
Qed.

Lemma stmt_exec_cases (st : MySqlStatement) (ps : list any) (log : Log) :
  Statement.exec st ps log = one_call st ps log true (fun r => Ok (changes_of r)).
Proof.
  unfold Statement.exec, Driver.exec, bind at 1, one_call.
  rewrite arrays_cases.
  destruct (params (stmt_native st) (first_arg ps)); [|reflexivity].
  now destruct (native (connection (stmt_native st)) log _).
Qed.


Lemma params_positional_array (d : DriverStatement) (xs : list any) :
  names_of (query d) = [] ->
  params d (VArr xs) = Ok (Some xs).
Proof. intros N. unfold params. now rewrite N. Qed.

(** X6: a statement without names hands an array argument to the
    driver as it is, whatever its length and whatever the number of
    slots of the statement: [all] and [exec] send exactly that array in
    their one native call. *)
Theorem X6_positional_array_as_is (st : MySqlStatement) (xs : list any)
  (log : Log) :
  names_of (query (stmt_native st)) = [] ->
  params (stmt_native st) (VArr xs) = Ok (Some xs)
  /\ snd (Statement.all st [VArr xs] log)
     = log ++ [query_call (stmt_native st) (Some xs) false]
  /\ snd (Statement.exec st [VArr xs] log)
     = log ++ [query_call (stmt_native st) (Some xs) true].
Proof.
  intros N. pose proof (params_positional_array _ xs N) as P.
  split; [exact P|].
  rewrite stmt_all_cases, stmt_exec_cases. unfold one_call.
  cbn [first_arg nth]. now rewrite P.
Qed.

Lemma X6_positional_array_as_is_witness :
  snd (Statement.exec
         {| stmt_native := positional empty_pool
                             "INSERT INTO Contact(name,email) VALUES (?, ?)"
                             [VStr "Alice"; VStr "alice@mail.org"];
            _as := None |}
         [VArr [VStr "Bob"]] [])
  = [ {| call_sql := "INSERT INTO Contact(name,email) VALUES (?, ?)";
         call_values := Some [VStr "Bob"];
         call_rowsAsArray := true |} ].
Proof.
  apply (X6_positional_array_as_is
           {| stmt_native := positional empty_pool
                               "INSERT INTO Contact(name,email) VALUES (?, ?)"
                               [VStr "Alice"; VStr "alice@mail.org"];
              _as := None |}
           [VStr "Bob"] []).
  reflexivity.
Defined.

Lemma params_one_slot (d : DriverStatement) (p : any) :
  names_of (query d) = [] ->
  List.length (values (query d)) = 1 ->
  IS_arr p = false ->
  params d p = Ok (if truthy p then Some [p] else None).
Proof.
  intros N L A. unfold params. rewrite N, A, L. simpl.
  destruct (values (query d)); [discriminate L | reflexivity].
Qed.

(** X7: on a statement without names and with one slot, an argument
    that is not an array is sent as the one-element list holding it
    when it is truthy, and is not sent at all when it is falsy ([0],
    the empty string, [false], [null], [undefined]): the native call
    then carries no values. *)
Theorem X7_one_slot_scalar (st : MySqlStatement) (p : any) (log : Log) :
  names_of (query (stmt_native st)) = [] ->
  List.length (values (query (stmt_native st))) = 1 ->
  IS_arr p = false ->
  snd (Statement.all st [p] log)
  = log ++ [query_call (stmt_native st)
              (if truthy p then Some [p] else None) false]
  /\ snd (Statement.value st [p] log)
     = log ++ [query_call (stmt_native st)
                 (if truthy p then Some [p] else None) true].
Proof.
  intros N L A. pose proof (params_one_slot _ p N L A) as P.
  rewrite stmt_all_cases, stmt_value_cases. unfold one_call.
  cbn [first_arg nth]. now rewrite P.
Qed.

Lemma X7_one_slot_scalar_witness :
  snd (Statement.all
         {| stmt_native := positional empty_pool
                             "SELECT * FROM Contact WHERE age = ?" [VNum 1];
            _as := None |}
         [VNum 0] [])
  = [ {| call_sql := "SELECT * FROM Contact WHERE age = ?";
         call_values := None;
         call_rowsAsArray := false |} ].
Proof.
  apply (X7_one_slot_scalar
           {| stmt_native := positional empty_pool
                               "SELECT * FROM Contact WHERE age = ?" [VNum 1];
              _as := None |}
           (VNum 0) []); reflexivity.
Defined.

Lemma params_invalid (d : DriverStatement) (p : any) :
  names_of (query d) = [] \/ p = VUndefined ->
  2 <= List.length (values (query d)) ->
  IS_arr p = false ->
  params d p
  = Throw (Error ("Invalid params (" ++ typeof p ++ ") for query: "
                  ++ sql (query d))%string).
Proof.
  intros N L A. unfold params.
  replace (nonempty (names_of (query d)) && IS_rec p) with false.
  - rewrite A.
    destruct (values (query d)) as [|v [|w vs]]; simpl in L; try lia.
    reflexivity.
  - destruct N as [-> | ->]; [reflexivity | now rewrite andb_false_r].
Qed.

(** X8: on a statement with two or more slots, an argument that is not
    an array makes every operation fail with [Invalid params], naming
    the type of the argument and the SQL, before any native call; this
    holds for a statement without names, and for any statement when the
    argument is left out. *)
Theorem X8_invalid_params (st : MySqlStatement) (ps : list any) (log : Log) :
  names_of (query (stmt_native st)) = [] \/ first_arg ps = VUndefined ->
  2 <= List.length (values (query (stmt_native st))) ->
  IS_arr (first_arg ps) = false ->
  let e := Error ("Invalid params (" ++ typeof (first_arg ps)
                  ++ ") for query: " ++ sql (query (stmt_native st)))%string in
  Statement.all st ps log = (Throw e, log)
  /\ Statement.one st ps log = (Throw e, log)
  /\ Statement.column st ps log = (Throw e, log)
  /\ Statement.value st ps log = (Throw e, log)
  /\ Statement.arrays st ps log = (Throw e, log)
  /\ Statement.array st ps log = (Throw e, log)
  /\ Statement.exec st ps log = (Throw e, log)
  /\ Statement.run st ps log = (Throw e, log).
Proof.
  intros N L A e. pose proof (params_invalid _ _ N L A) as P. fold e in P.
  rewrite stmt_all_cases, stmt_one_cases, stmt_column_cases,
    stmt_value_cases, stmt_arrays_cases, stmt_array_cases, stmt_exec_cases.
  unfold Statement.run. rewrite run_cases. unfold one_call. rewrite P.
  repeat split.
Qed.

Lemma X8_invalid_params_witness :
  Statement.all
    {| stmt_native := positional empty_pool
                        "SELECT * FROM Contact WHERE name = ? AND age = ?"
                        [VStr "Jane"; VNum 30];
       _as := None |}
    [VStr "Jane"; VNum 30] []
  = (Throw (Error "Invalid params (string) for query: SELECT * FROM Contact WHERE name = ? AND age = ?"),
     []).
Proof.
  apply (X8_invalid_params
           {| stmt_native := positional empty_pool
                               "SELECT * FROM Contact WHERE name = ? AND age = ?"
                               [VStr "Jane"; VNum 30];
              _as := None |}
           [VStr "Jane"; VNum 30] []).
  - now left.
  - simpl. lia.
  - reflexivity.
Defined.

(** X9: an error of the driver comes back as it is, after exactly one
    native call, from every fetch operation and from [exec]; [run]
    does the same when it has values to send. *)
Theorem X9_native_error_unchanged (st : MySqlStatement) (ps : list any)
  (log : Log) (pv : option (list any)) (e : error) :
  params (stmt_native st) (first_arg ps) = Ok pv ->
  (forall asArray,
      native (connection (stmt_native st)) log
        (query_call (stmt_native st) pv asArray) = Throw e) ->
  Statement.all st ps log
  = (Throw e, log ++ [query_call (stmt_native st) pv false])
  /\ Statement.one st ps log
     = (Throw e, log ++ [query_call (stmt_native st) pv false])
  /\ Statement.column st ps log
     = (Throw e, log ++ [query_call (stmt_native st) pv true])
  /\ Statement.value st ps log
     = (Throw e, log ++ [query_call (stmt_native st) pv true])
  /\ Statement.arrays st ps log
     = (Throw e, log ++ [query_call (stmt_native st) pv true])
  /\ Statement.array st ps log
     = (Throw e, log ++ [query_call (stmt_native st) pv true])
  /\ Statement.exec st ps log
     = (Throw e, log ++ [query_call (stmt_native st) pv true])
  /\ (Driver.no_values pv = false ->
      Statement.run st ps log
      = (Throw e, log ++ [query_call (stmt_native st) pv false])).
Proof.
  intros P F.
  rewrite stmt_all_cases, stmt_one_cases, stmt_column_cases,
    stmt_value_cases, stmt_arrays_cases, stmt_array_cases, stmt_exec_cases.
  unfold Statement.run. rewrite run_cases. unfold one_call.
  rewrite P, (F true), (F false). repeat split.
  intros ->. reflexivity.
Qed.

Lemma X9_native_error_unchanged_witness :
  Statement.exec
    {| stmt_native := positional (failing_pool "DELETE FROM Contact WHERE id = ?")
                        "DELETE FROM Contact WHERE id = ?" [VNum 0];
       _as := None |}
    [VNum 7] []
  = (Throw (NativeError "ER_PARSE_ERROR"),
     [ {| call_sql := "DELETE FROM Contact WHERE id = ?";
          call_values := Some [VNum 7]; call_rowsAsArray := true |} ]).
Proof.
  apply (X9_native_error_unchanged
           {| stmt_native :=
                positional (failing_pool "DELETE FROM Contact WHERE id = ?")
                  "DELETE FROM Contact WHERE id = ?" [VNum 0];
              _as := None |}
           [VNum 7] [] (Some [VNum 7]) (NativeError "ER_PARSE_ERROR"));
    reflexivity.
Defined.

Lemma or_zero_some (n : Z) : or_zero (Some n) = n.
Proof.
  unfold or_zero. destruct (Z.eqb_spec n 0) as [-> | _]; reflexivity.
Qed.

(** X10: [exec] makes one native call, asking for rows as arrays, and
    reports the header of the reply: [changes] is its [affectedRows]
    and [lastInsertRowid] its [insertId]; a reply that is a row list,
    which has neither, is reported as zero changes and zero key. *)
Theorem X10_exec_change_result (st : MySqlStatement) (ps : list any)
  (log : Log) (pv : option (list any)) (r : QueryResult) :
  params (stmt_native st) (first_arg ps) = Ok pv ->
  native (connection (stmt_native st)) log
    (query_call (stmt_native st) pv true) = Ok r ->
  Statement.exec st ps log
  = (Ok match r with
        | ResultSetHeader a i => {| changes := a; lastInsertRowid := i |}
        | RowData _ => {| changes := 0; lastInsertRowid := 0 |}
        end,
     log ++ [query_call (stmt_native st) pv true]).
Proof.
  intros P R. rewrite stmt_exec_cases. unfold one_call. rewrite P, R.
  destruct r as [rows | a i]; [reflexivity|].
  unfold changes_of. cbn [obind header_affectedRows header_insertId].
  now rewrite !or_zero_some.
Qed.

Lemma X10_exec_change_result_witness :
  Statement.exec
    {| stmt_native := positional counting_pool
                        "INSERT INTO Contact(name) VALUES (?)" [VNum 0];
       _as := None |}
    [VStr "Bob"] []
  = (Ok {| changes := 1; lastInsertRowid := 1 |},
     [ {| call_sql := "INSERT INTO Contact(name) VALUES (?)";
          call_values := Some [VStr "Bob"]; call_rowsAsArray := true |} ]).
Proof.
  apply (X10_exec_change_result
           {| stmt_native := positional counting_pool
                               "INSERT INTO Contact(name) VALUES (?)" [VNum 0];
              _as := None |}
           [VStr "Bob"] [] (Some [VStr "Bob"]) (ResultSetHeader 1 1));
    reflexivity.
Defined.

Lemma result_defined (st : MySqlStatement) (o : any) :
  result st o <> VUndefined.
Proof.
  unfold result. destruct (is_nullish o) eqn:N; [discriminate|].
  destruct (_as st) as [t|].
  - destruct (IS_obj o); [discriminate|]. intros ->. discriminate N.
  - intros ->. discriminate N.
Qed.

Lemma coalesce_defined (v : any) : js_coalesce v VNull <> VUndefined.
Proof. destruct v; discriminate. Qed.

(** X11: whatever the driver replies and whatever the argument, [one]
    and [value] never return [undefined]: what they return, when they
    return, is [null] or a defined value. *)
Theorem X11_one_value_defined (st : MySqlStatement) (ps : list any)
  (log log' : Log) (v : any) :
  Statement.one st ps log = (Ok v, log')
  \/ Statement.value st ps log = (Ok v, log') ->
  v <> VUndefined.
Proof.
  rewrite stmt_one_cases, stmt_value_cases. unfold one_call.
  destruct (params (stmt_native st) (first_arg ps)) as [pv|e].
  - intros [H | H]; injection H as H _;
      destruct (native _ log _) as [r|e]; try discriminate H; simpl in H.
    + injection H as <-. apply result_defined.
    + destruct (result_map (js_at 0) r); [|discriminate H].
      injection H as <-. apply coalesce_defined.
  - intros [H | H]; discriminate H.
Qed.

Lemma X11_one_value_defined_witness :
  Statement.value
    {| stmt_native := positional empty_pool "SELECT 1" []; _as := None |}
    [] []
  = (Ok VNull,
     [ {| call_sql := "SELECT 1"; call_values := None;
          call_rowsAsArray := true |} ])
  /\ VNull <> VUndefined.
Proof.
  split; [reflexivity|].
  apply (X11_one_value_defined
           {| stmt_native := positional empty_pool "SELECT 1" [];
              _as := None |} [] []
           [ {| call_sql := "SELECT 1"; call_values := None;
                call_rowsAsArray := true |} ] VNull).
  right. reflexivity.
Defined.

(** ** More on the script splitter *)

Lemma split_from_whole (s : string) :
  has_separator s = false -> split_from 0 s = [s].
Proof.
  induction s as [|c s IH]; [reflexivity|].
  cbn [has_separator split_from]. intros H. apply orb_false_iff in H.
  destruct H as [H1 H2]. apply negb_false_iff, Nat.eqb_eq in H1.
  now rewrite H1, (IH H2).
Qed.






Lemma separator_at_before_semicolon (t u : string) :
  t <> "" ->
  separator_at (t ++ String semicolon u) = separator_at t.
Proof.
  destruct t as [|c1 [|c2 [|c3 r]]]; [congruence | | | reflexivity]; intros _.
  - simpl. destruct (c1 =? semicolon)%char; reflexivity.
  - simpl. destruct (c1 =? semicolon)%char; [|reflexivity].
    destruct (c2 =? LF)%char; [reflexivity|].
    destruct (c2 =? CR)%char; reflexivity.
Qed.

Lemma separator_fits (c : ascii) (a : string) (j : nat) :
  separator_at (String c a) = S j -> j <= String.length a.
Proof.
  intros H.
  destruct (separator_at_cases (String c a))
    as [E | [[r [E1 E2]] | [r [E1 E2]]]]; [congruence | |].
  - rewrite H in E2. injection E2 as ->. injection E1 as _ ->. simpl. lia.
  - rewrite H in E2. injection E2 as ->. injection E1 as _ ->. simpl. lia.
Qed.

Lemma push_front_app (c : ascii) (xs ys : list string) :
  xs <> [] -> push_front c (xs ++ ys) = push_front c xs ++ ys.
Proof. destruct xs; [congruence | reflexivity]. Qed.

Lemma split_from_join (a sp b : string) (k : nat) :
  is_separator sp ->
  k <= String.length a ->
  split_from k (a ++ sp ++ b) = split_from k a ++ split_from 0 b.
Proof.
  intros S. revert k; induction a as [|c a IH]; intros k L.
  - simpl in L. assert (k = 0) as -> by lia.
    destruct S as [-> | ->]; reflexivity.
  - change (String c a ++ sp ++ b)%string with (String c (a ++ sp ++ b)).
    cbn [split_from]. destruct k as [|k].
    + replace (separator_at (String c (a ++ sp ++ b)))
        with (separator_at (String c a)).
      * destruct (separator_at (String c a)) as [|j] eqn:E.
        -- rewrite IH by lia. apply push_front_app.
           destruct (split_from_cons 0 a) as [p [ps ->]]. discriminate.
        -- rewrite IH; [reflexivity|]. now apply (separator_fits c).
      * symmetry.
        assert (exists u, (sp ++ b)%string = String semicolon u) as [u ->]
          by (destruct S as [-> | ->]; eexists; reflexivity).
        change (String c (a ++ String semicolon u))
          with (String c a ++ String semicolon u)%string.
        now apply separator_at_before_semicolon.
    + apply IH. simpl in L. lia.
Qed.

(** X13: joining two scripts with a semicolon and a line break and
    splitting the result gives the statements of the first followed by
    the statements of the second. *)
Theorem X13_split_join (a sp b : string) :
  is_separator sp ->
  splitSqlStatements (a ++ sp ++ b)
  = splitSqlStatements a ++ splitSqlStatements b.
Proof.
  intros S. unfold splitSqlStatements, split_statements_regex.
  rewrite (split_from_join a sp b 0 S) by lia.
  now rewrite map_app, filter_app.
Qed.

Lemma X13_split_join_witness :
  splitSqlStatements
    ("DROP TABLE a" ++ sep_crlf ++ "CREATE TABLE a(id INT)")
  = ["DROP TABLE a"; "CREATE TABLE a(id INT)"].
Proof.
  apply (X13_split_join "DROP TABLE a" sep_crlf "CREATE TABLE a(id INT)").
  now right.
Defined.

Lemma all_space_no_separator (s : string) :
  all_space s = true -> has_separator s = false.
Proof.
  induction s as [|c s IH]; [reflexivity|].
  cbn [all_space has_separator]. intros H. apply andb_true_iff in H.
  destruct H as [Hc Hs]. rewrite (IH Hs), orb_false_r.
  apply negb_false_iff, Nat.eqb_eq.
  destruct s as [|d s]; [reflexivity|]. simpl.
  destruct (Ascii.eqb_spec c semicolon) as [-> | _];
    [discriminate Hc | reflexivity].
Qed.

Lemma all_space_trimStart (s : string) :
  all_space s = true -> trimStart s = "".
Proof.
  induction s as [|c s IH]; [reflexivity|].
  cbn [all_space trimStart]. intros H. apply andb_true_iff in H.
  destruct H as [-> Hs]. now apply IH.
Qed.

Lemma split_blank (s : string) :
  all_space s = true -> splitSqlStatements s = [].
Proof.
  intros H. unfold splitSqlStatements, split_statements_regex.
  rewrite (split_from_whole _ (all_space_no_separator _ H)).
  simpl. unfold trim. now rewrite (all_space_trimStart _ H).
Qed.

(** X14: [run] without values on a script that is empty or all white
    space succeeds without any native call. *)
Theorem X14_run_blank (st : MySqlStatement) (ps : list any) (log : Log)
  (pv : option (list any)) :
  all_space (sql (query (stmt_native st))) = true ->
  params (stmt_native st) (first_arg ps) = Ok pv ->
  Driver.no_values pv = true ->
  Statement.run st ps log = (Ok tt, log).
Proof.
  intros B P N. unfold Statement.run. rewrite run_cases, P, N.
  now rewrite (split_blank _ B).
Qed.

Lemma X14_run_blank_witness :
  Statement.run
    {| stmt_native :=
         positional (failing_pool "")
           (String LF (String " "%char (String (ascii_of_nat 9) ""))) [];
       _as := None |} [] []
  = (Ok tt, []).
Proof.
  apply (X14_run_blank
           {| stmt_native :=
                positional (failing_pool "")
                  (String LF (String " "%char (String (ascii_of_nat 9) ""))) [];
              _as := None |} [] [] None); reflexivity.
Defined.

(** ** Row mutations, end to end *)

Lemma params_mapping (d : DriverStatement) (names : list string)
  (m : list (string * any)) :
  paramNames (query d) = Some names ->
  (names = [] -> values (query d) = []) ->
  params d (VObj m)
  = Ok match names with
       | [] => None
       | _ :: _ => Some (map (bound_value m) names)
       end.
Proof.
  intros E V. destruct names as [|n names].
  - apply params_unnamed_mapping; [|now apply V].
    unfold names_of. now rewrite E.
  - now apply params_named.
Qed.

(** What [exec] does with a serialized row on a statement prepared from
    a text. *)
Lemma exec_prepared_text (conn : MySqlConnection) (text : string)
  (lits names : list string) (m : list (string * any)) :
  tokenised text lits names ->
  exists st,
    prepare conn (Raw text) [] = Ok st
    /\ forall log,
         Statement.exec st [VObj m] log
         = (obind (native conn log (named_call (with_placeholders lits) names m))
              (fun r => Ok (changes_of r)),
            log ++ [named_call (with_placeholders lits) names m]).
Proof.
  intros T. eexists. split; [exact (prepare_text conn text lits names T)|].
  intros log0. rewrite stmt_exec_cases. unfold one_call.
  cbn [stmt_native first_arg nth].
  rewrite (params_mapping _ names m); [reflexivity | reflexivity |].
  now intros ->.
Qed.

(** X16: inserting a present row whose serialized form is a mapping
    makes exactly one native call: its SQL is the generated INSERT with
    each named token replaced by [?], its values are the serialized
    fields looked up by token name, [null] for a field that is absent,
    [null] or [undefined]; the result is the Change Result of the
    reply, or the driver's error. *)
Theorem X16_insert_one_call (conn : MySqlConnection) (row : ClassInstance)
  (options : option Options) (log : Log) (lits names : list string)
  (m : list (string * any)) :
  let only := if filtering options
              then Some (requested_props row options) else None in
  tokenised (schema_insert (schema conn) (constructor row) only) lits names ->
  toDbObject (schema conn) row only = VObj m ->
  Db.insert conn (Some row) options log
  = (obind (native conn log (named_call (with_placeholders lits) names m))
       (fun r => Ok (changes_of r)),
     log ++ [named_call (with_placeholders lits) names m]).
Proof.
  intros only T S. unfold Db.insert. subst only.
  destruct (exec_prepared_text conn _ lits names m T) as [st [P X]].
  destruct (filtering options); unfold bind at 1, lift;
    rewrite P, S; apply X.
Qed.

Lemma tokenised_stub_insert :
  tokenised "INSERT INTO Contact VALUES ($id, $email)"
    ["INSERT INTO Contact VALUES ("; ", "; ")"] ["id"; "email"].
Proof.
  token "INSERT INTO Contact VALUES (" "id" ", $email)".
  token ", " "email" ")". now constructor.
Qed.

Lemma X16_insert_one_call_witness :
  Db.insert (stub_conn counting_pool) (Some jane)
    (Some {| onlyProps := Some ["email"]; onlyWithValues := false |}) []
  = (Ok {| changes := 1; lastInsertRowid := 1 |},
     [ {| call_sql := "INSERT INTO Contact VALUES (?, ?)";
          call_values := Some [VNull; VStr "jane@doe.org"];
          call_rowsAsArray := true |} ]).
Proof.
  apply (X16_insert_one_call (stub_conn counting_pool) jane
           (Some {| onlyProps := Some ["email"]; onlyWithValues := false |})
           [] _ _ [("email", VStr "jane@doe.org")] tokenised_stub_insert).
  reflexivity.
Defined.

Lemma last_cons {A} (a d : A) (l : list A) : last (a :: l) d = last l a.
Proof.
  revert a d; induction l as [|b l IH]; intros a d; [reflexivity|].
  change (last (a :: b :: l) d) with (last (b :: l) d).
  now rewrite !IH.
Qed.

Lemma tally_cons (acc c : Changes) (rest : list Changes) :
  tally acc (c :: rest)
  = tally {| changes := number_add (changes acc) (changes c);
             lastInsertRowid := lastInsertRowid c |} rest.
Proof.
  unfold tally. cbn [map fold_left changes lastInsertRowid].
  now rewrite last_cons.
Qed.

(** The accumulating loop over steps that each make one call. *)
Lemma accumulate_calls {A} (pool : Pool) (call : A -> NativeCall)
  (step : A -> async Changes) (rows : list A) :
  (forall row log, In row rows ->
     step row log
     = (obind (pool log (call row)) (fun r => Ok (changes_of r)),
        log ++ [call row])) ->
  forall acc log,
    Db.accumulate step acc rows log
    = match rejected pool log (map call rows) with
      | None =>
          (Ok (tally acc (accepted pool log (map call rows))),
           log ++ map call rows)
      | Some e =>
          (Throw e,
           log ++ firstn (S (List.length (accepted pool log (map call rows))))
                    (map call rows))
      end.
Proof.
  induction rows as [|row rows IH]; intros H acc log.
  - simpl. rewrite app_nil_r. now destruct acc.
  - cbn [Db.accumulate map rejected accepted]. unfold bind at 1.
    rewrite H by now left.
    destruct (pool log (call row)) as [r|e]; simpl.
    + rewrite IH by (intros; apply H; now right).
      destruct (rejected pool (log ++ [call row]) (map call rows)).
      * now rewrite <- app_assoc.
      * now rewrite tally_cons, <- app_assoc.
    + reflexivity.
Qed.

(** X17: without property filtering, [insertAll] of rows that
    serialize to mappings prepares the generated INSERT once and makes
    one native call per row, in order, until a call is rejected. If
    none is, it reports the sum of the [changes] of the replies and the
    [lastInsertRowid] of the last one; otherwise it fails with the
    first error and the rows after the rejected one are not sent. *)
Theorem X17_insertAll_batch (conn : MySqlConnection) (first : ClassInstance)
  (others : list ClassInstance) (options : option Options) (log : Log)
  (lits names : list string) :
  filtering options = false ->
  tokenised (schema_insert (schema conn) (constructor first) None) lits names ->
  (forall row, In row (first :: others) ->
     exists m, toDbObject (schema conn) row None = VObj m) ->
  let calls :=
    map (fun row =>
           named_call (with_placeholders lits) names
             (fields_of (toDbObject (schema conn) row None)))
        (first :: others) in
  Db.insertAll conn (first :: others) options log
  = match rejected (native conn) log calls with
    | None =>
        (Ok (tally zero_changes (accepted (native conn) log calls)),
         log ++ calls)
    | Some e =>
        (Throw e,
         log ++ firstn (S (List.length (accepted (native conn) log calls)))
                  calls)
    end.
Proof.
  intros F T S calls. unfold Db.insertAll. rewrite F.
  destruct (exec_prepared_text conn _ lits names [] T) as [st [P _]].
  unfold bind at 1, lift. rewrite P.
  apply accumulate_calls.
  intros row log0 Hin. destruct (S row Hin) as [m E]. rewrite E.
  cbn [fields_of].
  destruct (exec_prepared_text conn _ lits names m T) as [st' [P' X]].
  rewrite P in P'. injection P' as <-. apply X.
Qed.

Lemma X17_insertAll_batch_witness :
  Db.insertAll (stub_conn counting_pool) [jane; bob] None []
  = (Ok {| changes := 2; lastInsertRowid := 2 |},
     [ {| call_sql := "INSERT INTO Contact VALUES (?, ?)";
          call_values := Some [VNum 2; VStr "jane@doe.org"];
          call_rowsAsArray := true |};
       {| call_sql := "INSERT INTO Contact VALUES (?, ?)";
          call_values := Some [VNum 3; VStr "bob@mail.org"];
          call_rowsAsArray := true |} ]).
Proof.
  apply (X17_insertAll_batch (stub_conn counting_pool) jane [bob] None []
           _ _ eq_refl tokenised_stub_insert).
  intros row [<- | [<- | []]]; eexists; reflexivity.
Defined.

(** X15: on its filtering branch, [update] hands one and the same
    property list to the SQL generator and to the serializer; that list
    has no duplicates and holds exactly the requested names (the given
    [onlyProps], or else the row's keys whose value is neither [null]
    nor [undefined]) and the column names of the primary-key
    properties. *)
Theorem X15_update_bound_set (conn : MySqlConnection) (row : ClassInstance)
  (options : option Options) :
  filtering options = true ->
  exists only,
    Db.update conn (Some row) options
    = (stmt <- lift (prepare conn
                       (Raw (schema_update (schema conn) (constructor row)
                               (Some only))) []) ;;
       Statement.exec stmt [toDbObject (schema conn) row (Some only)])
    /\ NoDup only
    /\ forall x,
         In x only
         <-> In x (match options with
                   | Some {| onlyProps := Some requested |} => requested
                   | _ => filter
                            (fun k => negb (is_nullish (js_get (VObj (fields row)) k)))
                            (map fst (fields row))
                   end)
             \/ In x (pkNames (constructor row)).
Proof.
  intros F. exists (update_onlyProps row options).
  split; [now apply update_filtering|].
  split; [apply set_from_NoDup|].
  intros x. unfold update_onlyProps. rewrite set_from_In, in_app_iff.
  reflexivity.
Qed.

Lemma X15_update_bound_set_witness :
  exists only,
    NoDup only
    /\ (In "name" only /\ In "contact_id" only /\ ~ In "email" only).
Proof.
  destruct (X15_update_bound_set (stub_conn empty_pool) jane
              (Some {| onlyProps := Some ["name"; "name"];
                       onlyWithValues := false |}) eq_refl)
    as [only [_ [N M]]].
  exists only. split; [exact N|]. repeat split.
  - apply M. left. now left.
  - apply M. right. now left.
  - intros H. apply M in H. simpl in H.
    destruct H as [[H | [H | []]] | [H | []]]; discriminate H.
Defined.

(** ** How the operations relate *)

(** X19: when the driver replies with a row list whose first row, if
    there is one, is truthy (as every row object is), [one] returns the
    first element of what [all] returns, and [null] when [all] returns
    the empty list. *)
Theorem X19_one_is_first_of_all (st : MySqlStatement) (ps : list any)
  (log : Log) (pv : option (list any)) (rows : list any) :
  params (stmt_native st) (first_arg ps) = Ok pv ->
  native (connection (stmt_native st)) log
    (query_call (stmt_native st) pv false) = Ok (RowData rows) ->
  (forall r, nth_error rows 0 = Some r -> truthy r = true) ->
  Statement.all st ps log
  = (Ok (map (result st) rows),
     log ++ [query_call (stmt_native st) pv false])
  /\ Statement.one st ps log
     = (Ok (nth 0 (map (result st) rows) VNull),
        log ++ [query_call (stmt_native st) pv false]).
Proof.
  intros P R T. rewrite stmt_all_cases, stmt_one_cases. unfold one_call.
  rewrite P, R. cbn [obind result_map]. split.
  - now rewrite (omap_pure _ (result st)).
  - destruct rows as [|r rows]; [reflexivity|].
    cbn [result_at nth map]. unfold js_or. now rewrite (T r eq_refl).
Qed.

Lemma X19_one_is_first_of_all_witness :
  Statement.one
    {| stmt_native :=
         positional (fun _ _ => Ok (RowData [VObj [("name", VStr "Jane")];
                                             VObj [("name", VStr "Bob")]]))
           "SELECT name FROM Contact" [];
       _as := Some "Contact" |} [] []
  = (Ok (VInst "Contact" (VObj [("name", VStr "Jane")])),
     [ {| call_sql := "SELECT name FROM Contact"; call_values := None;
          call_rowsAsArray := false |} ]).
Proof.
  apply (X19_one_is_first_of_all
           {| stmt_native :=
                positional (fun _ _ => Ok (RowData [VObj [("name", VStr "Jane")];
                                                    VObj [("name", VStr "Bob")]]))
                  "SELECT name FROM Contact" [];
              _as := Some "Contact" |} [] [] None
           [VObj [("name", VStr "Jane")]; VObj [("name", VStr "Bob")]]
           eq_refl eq_refl).
  intros r [= <-]. reflexivity.
Defined.

(** ** Connection-level operations *)

Lemma typed_native (pr : Prepared) :
  stmt_native (typed pr) = stmt_native (prep_stmt pr).
Proof. unfold typed. now destruct (prep_into pr). Qed.

(** X20: the connection-level fetch operations and [run] spread an
    array parameter source into separate arguments, of which the
    statement reads only the first. So on a statement without names and
    with two or more slots, an array whose first element is not itself
    an array makes them fail with [Invalid params] before any native
    call; [exec] called with a template passes the array whole and
    sends it in one call. *)
Theorem X20_spread_loses_values (pr : Prepared) (x : any) (rest : list any)
  (log : Log) :
  prep_params pr = VArr (x :: rest) ->
  names_of (query (stmt_native (prep_stmt pr))) = [] ->
  2 <= List.length (values (query (stmt_native (prep_stmt pr)))) ->
  IS_arr x = false ->
  let e := Error ("Invalid params (" ++ typeof x ++ ") for query: "
                  ++ sql (query (stmt_native (prep_stmt pr))))%string in
  Query.all pr log = (Throw e, log)
  /\ Query.one pr log = (Throw e, log)
  /\ Query.column pr log = (Throw e, log)
  /\ Query.value pr log = (Throw e, log)
  /\ Query.arrays pr log = (Throw e, log)
  /\ Query.array pr log = (Throw e, log)
  /\ Query.run pr log = (Throw e, log)
  /\ Query.exec false pr log = (Throw e, log)
  /\ snd (Query.exec true pr log)
     = log ++ [query_call (stmt_native (prep_stmt pr)) (Some (x :: rest)) true].
Proof.
  intros E N L A e.
  pose proof (params_invalid (stmt_native (prep_stmt pr)) x
                (or_introl N) L A) as P. fold e in P.
  unfold Query.all, Query.one, Query.column, Query.value, Query.arrays,
    Query.array, Query.run, Query.exec, spread.
  rewrite E. cbn [IS_arr elements andb negb].
  unfold bind.
  rewrite stmt_all_cases, stmt_one_cases, stmt_value_cases,
    !stmt_arrays_cases, stmt_array_cases, !stmt_exec_cases.
  unfold Statement.run. rewrite run_cases. unfold one_call.
  rewrite !typed_native. cbn [first_arg nth]. rewrite P.
  rewrite (params_positional_array _ (x :: rest) N).
  repeat split.
Qed.

Lemma X20_spread_loses_values_witness :
  Query.all
    {| prep_stmt :=
         {| stmt_native := positional empty_pool
                             "SELECT * FROM Contact WHERE name = ? AND age = ?"
                             [VStr "Jane"; VNum 30];
            _as := None |};
       prep_params := VArr [VStr "Jane"; VNum 30];
       prep_into := None |} []
  = (Throw (Error "Invalid params (string) for query: SELECT * FROM Contact WHERE name = ? AND age = ?"),
     []).
Proof.
  apply (X20_spread_loses_values
           {| prep_stmt :=
                {| stmt_native := positional empty_pool
                                    "SELECT * FROM Contact WHERE name = ? AND age = ?"
                                    [VStr "Jane"; VNum 30];
                   _as := None |};
              prep_params := VArr [VStr "Jane"; VNum 30];
              prep_into := None |}
           (VStr "Jane") [VNum 30] []); reflexivity.
Defined.

Lemma params_absent_few_names (d : DriverStatement) :
  List.length (values (query d)) <= 1 ->
  params d VUndefined = Ok None.
Proof.
  intros L. unfold params. rewrite andb_false_r. cbn [IS_arr].
  destruct (values (query d)) as [|v [|w vs]]; simpl in *;
    [reflexivity | reflexivity | lia].
Qed.

(** X21: [createTable] and [dropTable] prepare the generated text and
    run it without arguments. When the text holds at most one named
    token, what is sent is the text with that token replaced by [?]
    (the text itself when it holds none), one native call per
    statement, in order: all of them when each succeeds, and those up to
    and including the first that fails otherwise. *)
Theorem X21_ddl_statement_by_statement (conn : MySqlConnection)
  (ddl : string) (lits names : list string) (log : Log) :
  tokenised ddl lits names ->
  List.length names <= 1 ->
  let frags := splitSqlStatements (with_placeholders lits) in
  ((forall j, j < List.length frags ->
      succeeds_at (native conn) log frags j) ->
   Query.run_ddl conn ddl log = (Ok tt, log ++ map frag_call frags))
  /\ (forall i e,
        i < List.length frags ->
        (forall j, j < i -> succeeds_at (native conn) log frags j) ->
        reply_at (native conn) log frags i = Throw e ->
        Query.run_ddl conn ddl log
        = (Throw e, log ++ map frag_call (firstn (S i) frags))).
Proof.
  intros T L frags.
  assert (R : Query.run_ddl conn ddl log
              = for_each (run_fragment (native conn)) frags log).
  { unfold Query.run_ddl, bind at 1, lift.
    rewrite (prepare_text conn ddl lits names T).
    unfold Statement.run. rewrite run_cases. cbn [stmt_native first_arg nth].
    rewrite params_absent_few_names; [reflexivity|].
    cbn. now rewrite length_map. }
  rewrite R. split.
  - intros H. now apply for_each_all_ok.
  - intros i e Li H F. now apply for_each_first_failure.
Qed.

Lemma X21_ddl_statement_by_statement_witness :
  Query.run_ddl (stub_conn (failing_pool "CREATE TABLE b(id INT)"))
    three_tables []
  = (Throw (NativeError "ER_PARSE_ERROR"),
     [frag_call "CREATE TABLE a(id INT)"; frag_call "CREATE TABLE b(id INT)"]).
Proof.
  destruct (X21_ddl_statement_by_statement
              (stub_conn (failing_pool "CREATE TABLE b(id INT)"))
              three_tables [three_tables] [] []
              (tokenised_end three_tables eq_refl)) as [_ F].
  - simpl. lia.
  - apply (F 1 (NativeError "ER_PARSE_ERROR")).
    + simpl. lia.
    + intros j Hj. assert (j = 0) as -> by lia. now eexists.
    + reflexivity.
Defined.

(** X22: when the generated text holds two or more named tokens,
    [createTable] and [dropTable] fail with [Invalid params (undefined)]
    and send nothing. *)
Theorem X22_ddl_with_tokens_fails (conn : MySqlConnection) (ddl : string)
  (lits names : list string) (log : Log) :
  tokenised ddl lits names ->
  2 <= List.length names ->
  Query.run_ddl conn ddl log
  = (Throw (Error ("Invalid params (undefined) for query: "
                   ++ with_placeholders lits)%string),
     log).
Proof.
  intros T L. unfold Query.run_ddl, bind at 1, lift.
  rewrite (prepare_text conn ddl lits names T).
  unfold Statement.run. rewrite run_cases. cbn [stmt_native first_arg nth].
  rewrite params_invalid; [reflexivity | now right | | reflexivity].
  cbn. now rewrite length_map.
Qed.

Lemma tokenised_money_defaults :
  tokenised "CREATE TABLE t(a TEXT DEFAULT '$usd', b TEXT DEFAULT '$eur')"
    ["CREATE TABLE t(a TEXT DEFAULT '"; "', b TEXT DEFAULT '"; "')"]
    ["usd"; "eur"].
Proof.
  token "CREATE TABLE t(a TEXT DEFAULT '" "usd" "', b TEXT DEFAULT '$eur')".
  token "', b TEXT DEFAULT '" "eur" "')". now constructor.
Qed.

Lemma X22_ddl_with_tokens_fails_witness :
  Query.run_ddl (stub_conn empty_pool)
    "CREATE TABLE t(a TEXT DEFAULT '$usd', b TEXT DEFAULT '$eur')" []
  = (Throw (Error "Invalid params (undefined) for query: CREATE TABLE t(a TEXT DEFAULT '?', b TEXT DEFAULT '?')"),
     []).
Proof.
  apply (X22_ddl_with_tokens_fails (stub_conn empty_pool) _ _ _ []
           tokenised_money_defaults).
  simpl. lia.
Defined.
